(** * Living Inventory Management: a verification development for [app.py]

    The program is a single Streamlit script.  Its state is the list
    [st.session_state.inventory] of item dicts, mirrored to the file
    [inventory.json] by [save_inventory] after every mutation and read back
    by [json.load] when a session starts.

    The development has these parts:
    - Python text as sequences of code points, and the result of a call
      that may raise;
    - the part of Python's [json] module that [json.dump] and [json.load]
      exercise with their default arguments: the encoder
      ([ensure_ascii=True], separators [", "] and [": "]) and the decoder
      of CPython, with the floats of the runtime as a parameter;
    - the part of [re] that the name search of the inventory view reaches
      through [Series.str.contains];
    - the item dict of [main] (lines 42-50) as a record, and the operations
      of [main] on the in-memory list: add, delete, price update, and the
      two filters of the inventory view;
    - the backing file and a write that may fail, for [save_inventory] and
      the session initialisation;
    - the select boxes of the two tabs, the table of the inventory view
      and the counts and the total of the analytics tab;
    - the theorems: the codec round trip first, then the properties of
      the store, of its persistence and of the two filters, then those
      of the views, of the runs of a session and of the file's text. *)

From Stdlib Require Import ZArith NArith Lia Ascii String Decimal DecimalFacts DecimalN DecimalZ.
From stdpp Require Import base numbers list gmap.

Local Open Scope N_scope.

(** ** Text *)

(** A Python [str] is a sequence of code points. *)
Abbreviation char := N (only parsing).
Abbreviation str := (list N) (only parsing).

(** [py "abc"] is the [str] with the code points of an ASCII literal. *)
Definition py (s : string) : str := map N_of_ascii (list_ascii_of_string s).
Arguments py s%_string.

(** The characters the JSON codec tests for, by code point. *)
Local Abbreviation QUOTE := 34%N (only parsing).      (* the double quote *)
Local Abbreviation BACKSLASH := 92%N (only parsing).
Local Abbreviation SLASH := 47%N (only parsing).
Local Abbreviation MINUS := 45%N (only parsing).
Local Abbreviation PLUS := 43%N (only parsing).
Local Abbreviation DOT := 46%N (only parsing).
Local Abbreviation COMMA := 44%N (only parsing).
Local Abbreviation COLON := 58%N (only parsing).
Local Abbreviation LBRACKET := 91%N (only parsing).
Local Abbreviation RBRACKET := 93%N (only parsing).
Local Abbreviation LBRACE := 123%N (only parsing).
Local Abbreviation RBRACE := 125%N (only parsing).
Local Abbreviation SPACE := 32%N (only parsing).
Local Abbreviation ZERO := 48%N (only parsing).       (* the digit 0 *)

(** ** Calls that may raise *)

Inductive exn :=
| JSONDecodeError      (* json.load on text that is not JSON *)
| RecursionError       (* the decoder ran out of stack *)
| OSError              (* open or write on the backing file failed *)
| ReError.             (* re.compile rejected the pattern *)

Inductive result (A : Type) :=
| Ok (a : A)
| Raise (e : exn).
Arguments Ok {A} a.
Arguments Raise {A} e.

Global Instance result_ret : MRet result := fun A a => Ok a.
Global Instance result_bind : MBind result := fun A B k r =>
  match r with
  | Ok a => k a
  | Raise e => Raise e
  end.

(** ** Decimal digits *)

Definition is_digit (c : char) : bool := (48 <=? c) && (c <=? 57).

(** The digits of a [Decimal.uint], most significant first, as text. *)
Fixpoint digits (u : uint) : str :=
  match u with
  | Nil => []
  | D0 u => 48 :: digits u
  | D1 u => 49 :: digits u
  | D2 u => 50 :: digits u
  | D3 u => 51 :: digits u
  | D4 u => 52 :: digits u
  | D5 u => 53 :: digits u
  | D6 u => 54 :: digits u
  | D7 u => 55 :: digits u
  | D8 u => 56 :: digits u
  | D9 u => 57 :: digits u
  end.

(** The decimal number a run of digit characters spells; reading stops at
    the first character that is not a digit. *)
Fixpoint uint_of_digits (s : str) : uint :=
  match s with
  | [] => Nil
  | c :: s' =>
      let u := uint_of_digits s' in
      if c =? 48 then D0 u else if c =? 49 then D1 u
      else if c =? 50 then D2 u else if c =? 51 then D3 u
      else if c =? 52 then D4 u else if c =? 53 then D5 u
      else if c =? 54 then D6 u else if c =? 55 then D7 u
      else if c =? 56 then D8 u else if c =? 57 then D9 u
      else Nil
  end.

(** The longest prefix of digits, and what follows it. *)
Fixpoint span_digits (s : str) : str * str :=
  match s with
  | c :: s' =>
      if is_digit c then let '(ds, rest) := span_digits s' in (c :: ds, rest)
      else ([], s)
  | [] => ([], [])
  end.

(** [int.__repr__]: a minus sign for negative numbers, then the decimal
    digits without leading zeros.  (The limit that recent Python versions
    put on the number of digits of such a conversion is not modelled.) *)
Definition int_repr (z : Z) : str :=
  match Z.to_int z with
  | Pos u => digits u
  | Neg u => MINUS :: digits u
  end.

(** [int(s)] on the text of the integer part of a JSON number.  (As for
    [int_repr], the limit on the number of digits, past which recent
    Python versions raise [ValueError], is not modelled.) *)
Definition int_of_str (s : str) : Z :=
  match s with
  | c :: s' => if c =? MINUS then Z.of_int (Neg (uint_of_digits s'))
               else Z.of_int (Pos (uint_of_digits s))
  | [] => 0%Z
  end.

(** ** The number pattern of the JSON scanner

    [json.scanner.NUMBER_RE] has three groups: the integer part (an
    optional minus sign, then either a single 0 or a digit from 1 to 9
    followed by any digits), an optional fraction (a dot and at least one
    digit) and an optional exponent (e or E, an optional sign and at least
    one digit).  [lex_number] returns the three groups (the empty text for
    a group that did not take part) and the text after the match. *)

Definition lex_integer (s : str) : option (str * str) :=
  let '(sign, s1) :=
    match s with
    | c :: s' => if c =? MINUS then ([c], s') else ([], s)
    | [] => ([], s)
    end in
  match s1 with
  | c :: s2 =>
      if c =? ZERO then Some (sign ++ [c], s2)
      else if is_digit c then
        let '(ds, rest) := span_digits s2 in Some (sign ++ c :: ds, rest)
      else None
  | [] => None
  end.

Definition lex_frac (s : str) : str * str :=
  match s with
  | c :: s' =>
      if c =? DOT then
        match span_digits s' with
        | ([], _) => ([], s)
        | (ds, rest) => (c :: ds, rest)
        end
      else ([], s)
  | [] => ([], s)
  end.

Definition lex_exp (s : str) : str * str :=
  match s with
  | c :: s' =>
      if (c =? 101) || (c =? 69) then          (* e, E *)
        let '(sign, s1) :=
          match s' with
          | d :: s'' => if (d =? MINUS) || (d =? PLUS) then ([d], s'') else ([], s')
          | [] => ([], s')
          end in
        match span_digits s1 with
        | ([], _) => ([], s)
        | (ds, rest) => (c :: sign ++ ds, rest)
        end
      else ([], s)
  | [] => ([], s)
  end.

Definition lex_number (s : str) : option (str * str * str * str) :=
  match lex_integer s with
  | Some (integer, s1) =>
      let '(frac, s2) := lex_frac s1 in
      let '(exp, s3) := lex_exp s2 in
      Some (integer, frac, exp, s3)
  | None => None
  end.

(** A number literal cannot be extended by the text [rest] that follows
    it: [rest] does not start with a digit, a dot or an exponent mark. *)
Definition number_ends (rest : str) : Prop :=
  match rest with
  | c :: _ => is_digit c = false /\ c <> DOT /\ c <> 101 /\ c <> 69
  | [] => True
  end.

(** ** String literals of the JSON codec *)

Definition hex_digit (d : N) : char := if d <? 10 then 48 + d else 87 + d.

(** The format [{0:04x}] on a number below 65536. *)
Definition hex4 (n : N) : str :=
  [hex_digit (n / 4096 mod 16); hex_digit (n / 256 mod 16);
   hex_digit (n / 16 mod 16); hex_digit (n mod 16)].

(** The replacement of one character by [json.encoder]'s
    [encode_basestring_ascii]: the printable ASCII characters other than
    the quote and the backslash stand for themselves, seven characters
    have a two-character escape, and every other character is written as
    one [\uXXXX] escape or, from 65536 on, as a surrogate pair. *)
Definition escape_char (c : char) : str :=
  if c =? QUOTE then [BACKSLASH; QUOTE]
  else if c =? BACKSLASH then [BACKSLASH; BACKSLASH]
  else if (32 <=? c) && (c <=? 126) then [c]
  else if c =? 10 then [BACKSLASH; 110]         (* \n *)
  else if c =? 13 then [BACKSLASH; 114]         (* \r *)
  else if c =? 9 then [BACKSLASH; 116]          (* \t *)
  else if c =? 8 then [BACKSLASH; 98]           (* \b *)
  else if c =? 12 then [BACKSLASH; 102]         (* \f *)
  else if c <? 65536 then BACKSLASH :: 117 :: hex4 c
  else
    let n := c - 65536 in
    let s1 := N.lor 55296 (N.land (N.shiftr n 10) 1023) in
    let s2 := N.lor 56320 (N.land n 1023) in
    (BACKSLASH :: 117 :: hex4 s1) ++ (BACKSLASH :: 117 :: hex4 s2).

Definition encode_string (s : str) : str :=
  QUOTE :: concat (map escape_char s) ++ [QUOTE].

Definition hex_value (c : char) : option N :=
  if is_digit c then Some (c - 48)
  else if (97 <=? c) && (c <=? 102) then Some (c - 87)
  else if (65 <=? c) && (c <=? 70) then Some (c - 55)
  else None.

Definition unhex4 (h1 h2 h3 h4 : char) : option N :=
  match hex_value h1, hex_value h2, hex_value h3, hex_value h4 with
  | Some a, Some b, Some c, Some d => Some (((a * 16 + b) * 16 + c) * 16 + d)
  | _, _, _, _ => None
  end.

Definition is_high_surrogate (c : char) : bool := (55296 <=? c) && (c <=? 56319).
Definition is_low_surrogate (c : char) : bool := (56320 <=? c) && (c <=? 57343).

(** The character a backslash followed by [e] stands for, when [e] is not
    the letter u. *)
Definition unescape (e : char) : option char :=
  if e =? QUOTE then Some QUOTE
  else if e =? BACKSLASH then Some BACKSLASH
  else if e =? SLASH then Some SLASH
  else if e =? 98 then Some 8
  else if e =? 102 then Some 12
  else if e =? 110 then Some 10
  else if e =? 114 then Some 13
  else if e =? 116 then Some 9
  else None.

(** [json.decoder]'s [scanstring] in its default strict mode, started
    after the opening quote: the content of the literal and the text after
    the closing quote.  A [\uXXXX] escape naming a high surrogate is joined
    with a directly following [\uXXXX] escape naming a low surrogate. *)
Fixpoint scanstring (s : str) : result (str * str) :=
  match s with
  | [] => Raise JSONDecodeError
  | c :: s1 =>
      if c =? QUOTE then Ok ([], s1)
      else if c =? BACKSLASH then
        match s1 with
        | [] => Raise JSONDecodeError
        | e :: s2 =>
            if e =? 117 then
              match s2 with
              | h1 :: h2 :: h3 :: h4 :: s3 =>
                  match unhex4 h1 h2 h3 h4 with
                  | None => Raise JSONDecodeError
                  | Some u =>
                      let single := '(cs, rest) ← scanstring s3; Ok (u :: cs, rest) in
                      if is_high_surrogate u then
                        match s3 with
                        | b :: e' :: k1 :: k2 :: k3 :: k4 :: s4 =>
                            if (b =? BACKSLASH) && (e' =? 117) then
                              match unhex4 k1 k2 k3 k4 with
                              | None => Raise JSONDecodeError
                              | Some u2 =>
                                  if is_low_surrogate u2 then
                                    let j := 65536 + N.lor (N.shiftl (u - 55296) 10) (u2 - 56320) in
                                    '(cs, rest) ← scanstring s4; Ok (j :: cs, rest)
                                  else single
                              end
                            else single
                        | _ => single
                        end
                      else single
                  end
              | _ => Raise JSONDecodeError
              end
            else
              match unescape e with
              | Some d => '(cs, rest) ← scanstring s2; Ok (d :: cs, rest)
              | None => Raise JSONDecodeError
              end
        end
      else if c <=? 31 then Raise JSONDecodeError
      else '(cs, rest) ← scanstring s1; Ok (c :: cs, rest)
  end.

(** The texts the codec is used on: code points are below 17 * 65536, and
    no high surrogate stands directly before a low surrogate.  Every [str]
    that Python decodes from UTF-8 input is of this kind. *)
Fixpoint valid_str (s : str) : bool :=
  match s with
  | [] => true
  | c :: s' =>
      (c <? 1114112)
      && negb (is_high_surrogate c && match s' with d :: _ => is_low_surrogate d | [] => false end)
      && valid_str s'
  end.

(** ** Floats

    A Python [float] is a finite binary64 value, a NaN or an infinity.  The
    finite values, their [repr] and the conversion [float(s)] of a number
    literal belong to the Python runtime, not to this program: they are
    taken as parameters. *)

Inductive pyfloat (F : Type) :=
| Finite (x : F)
| NaN
| PosInf
| NegInf.
Arguments Finite {F} x.
Arguments NaN {F}.
Arguments PosInf {F}.
Arguments NegInf {F}.

Class PyFloat := {
  finite : Type;
  float_repr : finite -> str;                 (* float.__repr__ *)
  float_of_literal : str -> pyfloat finite;   (* float(s), s a number literal *)
}.

(** What the runtime guarantees about them: the [repr] of a finite float
    is a number literal with a fraction or an exponent, and converting it
    back gives the same float. *)
Class PyFloatLaws (FM : PyFloat) : Prop := {
  float_repr_lex : forall (x : finite) (rest : str),
    number_ends rest ->
    exists i f e,
      lex_number (float_repr x ++ rest) = Some (i, f, e, rest)
      /\ float_repr x = i ++ f ++ e
      /\ (f <> [] \/ e <> []);
  float_of_repr : forall x : finite, float_of_literal (float_repr x) = Finite x;
}.

(** The floats [n + 1/2] for natural [n], printed as the digits of [n]
    followed by [.5]: an instance to compute examples with. *)
Definition half_repr (n : N) : str := digits (N.to_uint n) ++ [DOT; 53].

Definition half_of_literal (s : str) : pyfloat N :=
  Finite (N.of_uint (uint_of_digits s)).

Definition half_floats : PyFloat :=
  {| finite := N; float_repr := half_repr; float_of_literal := half_of_literal |}.

(** ** Python values and the JSON codec *)

Definition NULL : str := Eval cbv in py "null".
Definition TRUE : str := Eval cbv in py "true".
Definition FALSE : str := Eval cbv in py "false".
Definition NAN : str := Eval cbv in py "NaN".
Definition INFINITY : str := Eval cbv in py "Infinity".
Definition NEG_INFINITY : str := Eval cbv in py "-Infinity".
Definition ITEM_SEPARATOR : str := [COMMA; SPACE].
Definition KEY_SEPARATOR : str := [COLON; SPACE].

Definition is_ws (c : char) : bool :=
  (c =? SPACE) || (c =? 9) || (c =? 10) || (c =? 13).

Fixpoint skip_ws (s : str) : str :=
  match s with
  | c :: s' => if is_ws c then skip_ws s' else s
  | [] => []
  end.

(** [strip p s] is the text after the prefix [p] of [s]. *)
Fixpoint strip (p s : str) : option str :=
  match p, s with
  | [], _ => Some s
  | a :: p', b :: s' => if a =? b then strip p' s' else None
  | _ :: _, [] => None
  end.

(** [sep.join(l)] *)
Fixpoint join (sep : str) (l : list str) : str :=
  match l with
  | [] => []
  | [x] => x
  | x :: l' => x ++ sep ++ join sep l'
  end.

Section Codec.
Context {FM : PyFloat}.

(** The values [json.load] returns and [json.dump] accepts.  A dict is the
    list of its entries in insertion order; its keys are strings. *)
Unset Elimination Schemes.
Inductive pyval :=
| PNone
| PBool (b : bool)
| PInt (z : Z)
| PFloat (x : pyfloat finite)
| PStr (s : str)
| PList (l : list pyval)
| PDict (d : list (str * pyval)).
Set Elimination Schemes.

(** [json.encoder]'s [floatstr] with [allow_nan=True]. *)
Definition floatstr (x : pyfloat finite) : str :=
  match x with
  | Finite x => float_repr x
  | NaN => NAN
  | PosInf => INFINITY
  | NegInf => NEG_INFINITY
  end.

(** [json.dumps] with the default arguments.  (The encoder of Python is
    recursive and raises [RecursionError] on a value nested too deep for
    the stack; this limit is not modelled.) *)
Fixpoint dumps (v : pyval) : str :=
  match v with
  | PNone => NULL
  | PBool true => TRUE
  | PBool false => FALSE
  | PInt z => int_repr z
  | PFloat x => floatstr x
  | PStr s => encode_string s
  | PList l => LBRACKET :: join ITEM_SEPARATOR (map dumps l) ++ [RBRACKET]
  | PDict d =>
      LBRACE :: join ITEM_SEPARATOR
                  (map (fun kv => encode_string kv.1 ++ KEY_SEPARATOR ++ dumps kv.2) d)
             ++ [RBRACE]
  end.

(** [d[k] = v] on a dict: an existing key keeps its place. *)
Fixpoint dict_set (d : list (str * pyval)) (k : str) (v : pyval) : list (str * pyval) :=
  match d with
  | [] => [(k, v)]
  | (k', v') :: d' =>
      if decide (k' = k) then (k', v) :: d' else (k', v') :: dict_set d' k v
  end.

(** [dict(pairs)] *)
Definition dict_of_pairs (pairs : list (str * pyval)) : list (str * pyval) :=
  fold_left (fun d kv => dict_set d kv.1 kv.2) pairs [].

(** The number at the head of [s], if [NUMBER_RE] matches there: a float
    when the literal has a fraction or an exponent, an int otherwise. *)
Definition scan_number (s : str) : option (pyval * str) :=
  match lex_number s with
  | Some (integer, [], [], rest) => Some (PInt (int_of_str integer), rest)
  | Some (integer, frac, exp, rest) =>
      Some (PFloat (float_of_literal (integer ++ frac ++ exp)), rest)
  | None => None
  end.

(** The literals [scan_once] tries when [s] starts with none of the quote,
    the brace and the bracket, in its order. *)
Definition scan_atom (s : str) : result (pyval * str) :=
  match strip NULL s with Some r => Ok (PNone, r) | None =>
  match strip TRUE s with Some r => Ok (PBool true, r) | None =>
  match strip FALSE s with Some r => Ok (PBool false, r) | None =>
  match scan_number s with Some vr => Ok vr | None =>
  match strip NAN s with Some r => Ok (PFloat NaN, r) | None =>
  match strip INFINITY s with Some r => Ok (PFloat PosInf, r) | None =>
  match strip NEG_INFINITY s with Some r => Ok (PFloat NegInf, r) | None =>
  Raise JSONDecodeError
  end end end end end end end.

(** [json.scanner]'s [scan_once] with [JSONArray] and [JSONObject] of
    [json.decoder].  [array_items] is the loop of [JSONArray], entered
    before a value; [object_members] is the loop of [JSONObject], entered
    after the opening quote of a key.  Python's call stack is the fuel. *)
Fixpoint scan_once (fuel : nat) (s : str) {struct fuel} : result (pyval * str) :=
  match fuel with
  | O => Raise RecursionError
  | S fuel =>
      match s with
      | [] => Raise JSONDecodeError
      | c :: s1 =>
          if c =? QUOTE then
            '(x, rest) ← scanstring s1; Ok (PStr x, rest)
          else if c =? LBRACE then
            match skip_ws s1 with
            | c' :: s2 =>
                if c' =? RBRACE then Ok (PDict [], s2)
                else if c' =? QUOTE then
                  '(pairs, rest) ← object_members fuel s2;
                  Ok (PDict (dict_of_pairs pairs), rest)
                else Raise JSONDecodeError
            | [] => Raise JSONDecodeError
            end
          else if c =? LBRACKET then
            match skip_ws s1 with
            | c' :: s2 =>
                if c' =? RBRACKET then Ok (PList [], s2)
                else '(values, rest) ← array_items fuel (c' :: s2);
                     Ok (PList values, rest)
            | [] => Raise JSONDecodeError
            end
          else scan_atom s
      end
  end
with array_items (fuel : nat) (s : str) {struct fuel} : result (list pyval * str) :=
  match fuel with
  | O => Raise RecursionError
  | S fuel =>
      '(value, s1) ← scan_once fuel s;
      match skip_ws s1 with
      | c :: s2 =>
          if c =? RBRACKET then Ok ([value], s2)
          else if c =? COMMA then
            '(values, rest) ← array_items fuel (skip_ws s2);
            Ok (value :: values, rest)
          else Raise JSONDecodeError
      | [] => Raise JSONDecodeError
      end
  end
with object_members (fuel : nat) (s : str) {struct fuel}
  : result (list (str * pyval) * str) :=
  match fuel with
  | O => Raise RecursionError
  | S fuel =>
      '(key, s1) ← scanstring s;
      match skip_ws s1 with
      | c :: s2 =>
          if c =? COLON then
            '(value, s3) ← scan_once fuel (skip_ws s2);
            match skip_ws s3 with
            | c' :: s4 =>
                if c' =? RBRACE then Ok ([(key, value)], s4)
                else if c' =? COMMA then
                  match skip_ws s4 with
                  | q :: s5 =>
                      if q =? QUOTE then
                        '(pairs, rest) ← object_members fuel s5;
                        Ok ((key, value) :: pairs, rest)
                      else Raise JSONDecodeError
                  | [] => Raise JSONDecodeError
                  end
                else Raise JSONDecodeError
            | [] => Raise JSONDecodeError
            end
          else Raise JSONDecodeError
      | [] => Raise JSONDecodeError
      end
  end.

(** [json.loads]: a text that starts with a byte order mark is refused;
    otherwise one value is read after leading whitespace, and only
    whitespace may follow it.  The decoder gets as much stack as the text
    can need (see [loads_raises_decode_error]): Python's recursion limit
    is not modelled. *)
Definition starts_with_bom (s : str) : bool :=
  match s with
  | c :: _ => c =? 65279
  | [] => false
  end.

Definition loads (s : str) : result pyval :=
  if starts_with_bom s then Raise JSONDecodeError
  else
    '(v, rest) ← scan_once (2 * length s + 1) (skip_ws s);
    match skip_ws rest with
    | [] => Ok v
    | _ :: _ => Raise JSONDecodeError
    end.

(** The values the round trip is stated for: their strings are texts in
    the sense of [valid_str], and the keys of a dict are distinct, as they
    are in every Python dict. *)
#[warnings="-register-all"]
Inductive wf_val : pyval -> Prop :=
| wf_none : wf_val PNone
| wf_bool b : wf_val (PBool b)
| wf_int z : wf_val (PInt z)
| wf_float x : wf_val (PFloat x)
| wf_str s : valid_str s = true -> wf_val (PStr s)
| wf_list l : Forall wf_val l -> wf_val (PList l)
| wf_dict d :
    NoDup d.*1 ->
    Forall (fun kv => valid_str kv.1 = true /\ wf_val kv.2) d ->
    wf_val (PDict d).

(** Fuel that is enough to read a value back from its text. *)
Fixpoint cost (v : pyval) : nat :=
  match v with
  | PList l => S (sum_list (map (fun x => S (cost x)) l))
  | PDict d => S (sum_list (map (fun kv => S (cost kv.2)) d))
  | _ => 1
  end.

End Codec.

(** ** Regular expressions, as far as the name search needs them

    [Series.str.contains(pat, case=False)] compiles [pat] with [re.compile]
    and the flag [re.IGNORECASE] (its [regex] argument defaults to [True])
    and keeps the rows where [search] finds a match.  The fragment of the
    pattern language modelled here: a character that is not special stands
    for itself, a dot for any character but the newline, and a pattern
    that starts with a repetition operator is refused.  [re_compile]
    returns [None] on every other pattern. *)

Definition is_special (c : char) : bool :=
  (c =? DOT) || (c =? 94) || (c =? 36) || (c =? 42) || (c =? PLUS) || (c =? 63)
  || (c =? LBRACE) || (c =? RBRACE) || (c =? LBRACKET) || (c =? RBRACKET)
  || (c =? BACKSLASH) || (c =? 124) || (c =? 40) || (c =? 41).

Definition is_repeat (c : char) : bool := (c =? 42) || (c =? PLUS) || (c =? 63).

Inductive atom :=
| Literal (c : char)
| AnyChar.

Fixpoint compile_atoms (pat : str) : option (list atom) :=
  match pat with
  | [] => Some []
  | c :: pat' =>
      if c =? DOT then cons AnyChar <$> compile_atoms pat'
      else if is_special c then None
      else cons (Literal c) <$> compile_atoms pat'
  end.

Definition re_compile (pat : str) : option (result (list atom)) :=
  match pat with
  | c :: _ => if is_repeat c then Some (Raise ReError) else Ok <$> compile_atoms pat
  | [] => Some (Ok [])
  end.

(** Equality of characters up to case on the ASCII letters. *)
Definition ascii_lower (c : char) : char :=
  if (65 <=? c) && (c <=? 90) then c + 32 else c.
Definition ascii_ignorecase (a b : char) : bool := ascii_lower a =? ascii_lower b.

Section Matching.
(** Whether [re.IGNORECASE] takes two characters for the same: a table of
    the runtime. *)
Variable ignorecase : char -> char -> bool.

Definition atom_match (a : atom) (x : char) : bool :=
  match a with
  | Literal c => ignorecase c x
  | AnyChar => negb (x =? 10)
  end.

(** The pattern matches a prefix of [s]. *)
Fixpoint match_here (p : list atom) (s : str) : bool :=
  match p, s with
  | [], _ => true
  | a :: p', x :: s' => atom_match a x && match_here p' s'
  | _ :: _, [] => false
  end.

(** [pattern.search(s) is not None] *)
Fixpoint re_search (p : list atom) (s : str) : bool :=
  match_here p s || match s with [] => false | _ :: s' => re_search p s' end.

End Matching.

(** ** The inventory *)

Section Inventory.
Context {FM : PyFloat}.

(** The dict that the "Add Item" branch builds (lines 42-50), one field
    per key. *)
Record item := {
  id : Z;
  name : str;
  category : str;
  quantity : Z;
  price : pyfloat finite;
  care_instructions : str;
  date_added : str;
}.

(** The item as the Python value it is: the keys in the order of the dict
    literal. *)
Definition item_value (it : item) : pyval :=
  PDict [(py "id", PInt (id it));
         (py "name", PStr (name it));
         (py "category", PStr (category it));
         (py "quantity", PInt (quantity it));
         (py "price", PFloat (price it));
         (py "care_instructions", PStr (care_instructions it));
         (py "date_added", PStr (date_added it))].

Definition store_value (inventory : list item) : pyval :=
  PList (map item_value inventory).

(** [item['price'] = new_price] *)
Definition set_price (it : item) (new_price : pyfloat finite) : item :=
  {| id := id it; name := name it; category := category it;
     quantity := quantity it; price := new_price;
     care_instructions := care_instructions it; date_added := date_added it |}.

(** Lines 42-50: the new item; [now] is the text of
    [datetime.now().strftime(...)]. *)
Definition new_item (inventory : list item) (item_name category : str) (quantity : Z)
    (price : pyfloat finite) (care_instructions now : str) : item :=
  {| id := Z.of_nat (length inventory) + 1;
     name := item_name;
     category := category;
     quantity := quantity;
     price := price;
     care_instructions := care_instructions;
     date_added := now |}.

(** Lines 103-106: the list comprehension of the delete branch. *)
Definition delete (inventory : list item) (item_to_delete : Z) : list item :=
  filter (fun item => id item <> item_to_delete) inventory.

(** Lines 138-140: the loop of the price update. *)
Fixpoint update_prices (inventory : list item) (item_to_update : Z)
    (new_price : pyfloat finite) : list item :=
  match inventory with
  | [] => []
  | item :: rest =>
      (if decide (id item = item_to_update) then set_price item new_price else item)
      :: update_prices rest item_to_update new_price
  end.

(** Lines 74-75: the category filter; [category_filter] is the list the
    multiselect returns, empty when nothing is selected. *)
Definition filter_by_category (df : list item) (category_filter : list str) : list item :=
  match category_filter with
  | [] => df
  | _ :: _ => filter (fun row => category row ∈ category_filter) df
  end.

(** Lines 76-77: the name search.  [None] when the term is a pattern
    outside the modelled fragment. *)
Definition filter_by_name (ignorecase : char -> char -> bool)
    (df : list item) (search_term : str) : option (result (list item)) :=
  match search_term with
  | [] => Some (Ok df)
  | _ :: _ =>
      match re_compile search_term with
      | Some (Ok p) =>
          Some (Ok (filter (fun row => re_search ignorecase p (name row) = true) df))
      | Some (Raise e) => Some (Raise e)
      | None => None
      end
  end.

(** An item whose four strings are texts in the sense of [valid_str]. *)
Definition valid_item (it : item) : Prop :=
  valid_str (name it) = true /\ valid_str (category it) = true
  /\ valid_str (care_instructions it) = true /\ valid_str (date_added it) = true.

(** ** The backing file *)

(** The session's inventory and the content of [inventory.json], if the
    file exists. *)
Record world := {
  inventory : list item;
  file : option str;
}.

(** What happens to a write: it goes through, [open] fails and leaves the
    file as it was, or the write fails after [n] characters reached the
    file, which [open] had truncated. *)
Inductive write_fault :=
| NoFault
| OpenFails
| WriteFails (n : nat).

(** Lines 22-24. *)
Definition save_inventory (io : write_fault) (w : world) : world * result () :=
  match io with
  | NoFault =>
      ({| inventory := inventory w;
          file := Some (dumps (store_value (inventory w))) |}, Ok ())
  | OpenFails => (w, Raise OSError)
  | WriteFails n =>
      ({| inventory := inventory w;
          file := Some (take n (dumps (store_value (inventory w)))) |}, Raise OSError)
  end.

(** Lines 16-20: the inventory of a new session.  [Some text] is a file
    that exists and that Python opened, read and decoded to [text]; a
    file that cannot be opened or decoded is not modelled. *)
Definition load (file : option str) : result pyval :=
  match file with
  | Some text => loads text
  | None => Ok (PList [])
  end.

(** Lines 41-53: the "Add Item" button. *)
Definition add_item (item_name category : str) (quantity : Z) (price : pyfloat finite)
    (care_instructions now : str) (io : write_fault) (w : world) : world * result () :=
  let new_item := new_item (inventory w) item_name category quantity price
                    care_instructions now in
  save_inventory io {| inventory := inventory w ++ [new_item]; file := file w |}.

(** Lines 102-109: the "Delete Selected Item" button. *)
Definition delete_item (item_to_delete : Z) (io : write_fault) (w : world)
  : world * result () :=
  save_inventory io {| inventory := delete (inventory w) item_to_delete; file := file w |}.

(** Lines 127-142: the "Update Price" button, which is shown only when an
    item with the selected id is found. *)
Definition update_price (item_to_update : Z) (new_price : pyfloat finite)
    (io : write_fault) (w : world) : world * result () :=
  match list_find (fun item => id item = item_to_update) (inventory w) with
  | Some _ =>
      save_inventory io
        {| inventory := update_prices (inventory w) item_to_update new_price;
           file := file w |}
  | None => (w, Ok ())
  end.

(** The user's actions, each with the fate of its write, and their runs. *)
Inductive action :=
| AddItem (item_name category : str) (quantity : Z) (price : pyfloat finite)
    (care_instructions now : str)
| DeleteItem (item_to_delete : Z)
| UpdatePrice (item_to_update : Z) (new_price : pyfloat finite).

Definition step (w : world) (a : action * write_fault) : world :=
  match a with
  | (AddItem n c q p i t, io) => (add_item n c q p i t io w).1
  | (DeleteItem x, io) => (delete_item x io w).1
  | (UpdatePrice x p, io) => (update_price x p io w).1
  end.

Definition run (w : world) (actions : list (action * write_fault)) : world :=
  fold_left step actions w.

End Inventory.

(** ** The select boxes, the table and the analytics tab *)

(** [Series.unique()]: the distinct values, in the order of their first
    occurrence. *)
Fixpoint unique (l : list str) : list str :=
  match l with
  | [] => []
  | x :: l' => x :: filter (fun y => y <> x) (unique l')
  end.

(** [Series.value_counts()]: how often each value of a column occurs, for
    the values that occur.  The result is the mapping from the labels to
    the counts; the order in which pandas lists the labels is not part of
    it. *)
Definition value_counts (column : list str) : gmap str nat :=
  foldr (fun c counts => <[c := S (default 0%nat (counts !! c))]> counts) ∅ column.

(** [Series.sum()] of a column of counts. *)
Definition counts_sum (counts : gmap str nat) : nat :=
  map_fold (fun _ n total => (n + total)%nat) 0%nat counts.

(** The 64-bit integers of a numeric column, and the sum of such a column,
    which wraps around. *)
Definition fits_int64 (z : Z) : bool := ((- 2 ^ 63 <=? z) && (z <? 2 ^ 63))%Z.
Definition wrap64 (z : Z) : Z := ((z + 2 ^ 63) mod 2 ^ 64 - 2 ^ 63)%Z.

Section Views.
Context {FM : PyFloat}.

(** Lines 19-20: the session that starts without a backing file. *)
Definition empty_store : world := {| inventory := []; file := None |}.

(** Lines 100 and 122: the options of the two id select boxes. *)
Definition id_options (inventory : list item) : list Z := map id inventory.

(** Line 127: the first item with the selected id, [None] without one. *)
Definition current_item (inventory : list item) (item_to_update : Z) : option item :=
  head (filter (fun item => id item = item_to_update) inventory).

(** Line 123: the label of an option of the id select box of the update
    tab; the f-string prints the id as [int.__repr__] does. *)
Definition format_func (inventory : list item) (x : Z) : str :=
  py "ID: " ++ int_repr x ++ py " - "
  ++ default [] (head (map name (filter (fun item => id item = x) inventory))).

(** Line 67: the options of the category filter. *)
Definition category_options (df : list item) : list str := unique (map category df).

(** Lines 73-77: the table of the inventory view. *)
Definition filtered_view (ignorecase : char -> char -> bool) (df : list item)
    (category_filter : list str) (search_term : str) : option (result (list item)) :=
  filter_by_name ignorecase (filter_by_category df category_filter) search_term.

(** Line 154, "Items by Category". *)
Definition category_counts (df : list item) : gmap str nat :=
  value_counts (map category df).

(** Line 166, "Total Items": the sum of the quantity column.  pandas
    stores the column as 64-bit integers when every quantity fits; the
    other cases are not modelled ([None]). *)
Definition total_items (df : list item) : option Z :=
  if forallb fits_int64 (map quantity df)
  then Some (wrap64 (foldr Z.add 0%Z (map quantity df)))
  else None.

End Views.

(** ** The name search as the specification words it

    [term] occurs in [s] as a substring, up to case. *)
Definition contains_ignorecase (ignorecase : char -> char -> bool) (term s : str) : Prop :=
  exists pre mid post,
    s = pre ++ mid ++ post /\ Forall2 (fun c x => ignorecase c x = true) term mid.

(** ** The store of the specification's scenario, with the example floats *)

(** [half n] is the float [n + 1/2]. *)
Definition half (n : N) : pyfloat (@finite half_floats) := @Finite (@finite half_floats) n.

Definition fern : @item half_floats :=
  {| id := 1; name := py "Fern"; category := py "Plants"; quantity := 2;
     price := half 9; care_instructions := py "Keep moist";
     date_added := py "2024-05-01 09:30:00" |}.

Definition goldfish : @item half_floats :=
  {| id := 2; name := py "Goldfish"; category := py "Aquatic Life"; quantity := 3;
     price := half 4; care_instructions := [];
     date_added := py "2024-05-01 09:31:00" |}.

Definition scenario : @world half_floats :=
  {| inventory := [fern; goldfish]; file := None |}.

(** ** Notions of the proofs *)

Definition starts_with_digit (s : str) : Prop :=
  match s with c :: _ => is_digit c = true | [] => False end.

(** The decimal numbers [int.__repr__] prints: a lone zero, or digits that
    start with a digit from 1 to 9. *)
Definition canonical (u : uint) : Prop :=
  u = D0 Nil \/ exists c ds, digits u = c :: ds /\ 49 <= c <= 57.

(** The text after a [\uXXXX] escape, as [scanstring] goes on with it. *)
Definition after_escape (u : N) (s3 : str) : result (str * str) :=
  let single := '(cs, rest) ← scanstring s3; Ok (u :: cs, rest) in
  if is_high_surrogate u then
    match s3 with
    | b :: e' :: k1 :: k2 :: k3 :: k4 :: s4 =>
        if (b =? 92) && (e' =? 117) then
          match unhex4 k1 k2 k3 k4 with
          | None => Raise JSONDecodeError
          | Some u2 =>
              if is_low_surrogate u2 then
                '(cs, rest) ← scanstring s4;
                Ok (65536 + N.lor (N.shiftl (u - 55296) 10) (u2 - 56320) :: cs, rest)
              else single
          end
        else single
    | _ => single
    end
  else single.

(** No [\uXXXX] escape of a low surrogate stands at the head of [t]. *)
Definition no_low_escape (t : str) : Prop :=
  forall k1 k2 k3 k4 s4,
    t = 92 :: 117 :: k1 :: k2 :: k3 :: k4 :: s4 ->
    exists u2, unhex4 k1 k2 k3 k4 = Some u2 /\ is_low_surrogate u2 = false.

Definition head_not_low (s : str) : Prop :=
  match s with d :: _ => is_low_surrogate d = false | [] => True end.

(** The characters the text of a value can start with: a minus sign, a
    digit or the first letter of a constant for a number, [None] or a
    bool; the quote, the bracket or the brace otherwise. *)
Definition atom_start (c : char) : Prop :=
  c = 45 \/ 48 <= c <= 57 \/ c = 110 \/ c = 116 \/ c = 102 \/ c = 78 \/ c = 73.

Definition value_start (c : char) : Prop :=
  atom_start c \/ c = 34 \/ c = 91 \/ c = 123.

(** What a call of the decoder on [s] with [fuel] may do: return with
    less text than it got, raise [JSONDecodeError], or raise
    [RecursionError] when the fuel is below [bound]. *)
Definition progresses {A : Type} (r : result (A * str)) (s : str) (fuel bound : nat) : Prop :=
  match r with
  | Ok (_, rest) => (length rest < length s)%nat
  | Raise e => e = JSONDecodeError \/ (e = RecursionError /\ (fuel < bound)%nat)
  end.

Section ProofNotions.
Context {FM : PyFloat}.

(** [scan_once] reads the value [v] back from its JSON text, whatever
    follows that cannot continue a number. *)
Definition reads_back (v : pyval) : Prop :=
  forall (fuel : nat) (rest : str),
    (cost v <= fuel)%nat -> number_ends rest ->
    scan_once fuel (dumps v ++ rest) = Ok (v, rest).

(** The text of one dict entry. *)
Definition member (kv : str * pyval) : str :=
  encode_string kv.1 ++ KEY_SEPARATOR ++ dumps kv.2.

End ProofNotions.

(** A printable ASCII character. *)
Definition printable (c : char) : Prop := 32 <= c <= 126.

(** The text [r] after a number cannot take part in the number, and is
    not empty. *)
Definition terminated (r : str) : Prop :=
  match r with
  | c :: _ => c <> 46 /\ c <> 101 /\ c <> 69
  | [] => False
  end.

(** The text starts a string, a list or a dict. *)
Definition opens (s : str) : Prop :=
  match s with
  | c :: _ => c = 34 \/ c = 91 \/ c = 123
  | [] => False
  end.

(** A text as Python decodes it from a file: code points, none of them a
    surrogate. *)
Definition clean (s : str) : Prop :=
  Forall (fun c => c < 1114112 /\ ~ (55296 <= c <= 57343)) s.

Section Limits.
Context {FM : PyFloat}.

(** How deep a value nests: 0 for a number, a string, a bool or [None].
    The value of an inventory nests to depth 2, a list of dicts. *)
Fixpoint depth (v : pyval) : nat :=
  match v with
  | PList l => S (max_list (map depth l))
  | PDict d => S (max_list (map (fun kv => depth kv.2) d))
  | _ => O
  end.

(** The integers of the value have at most 4300 digits, the most that
    [int] converts from and to text with the default setting of recent
    Python versions. *)
Fixpoint small_ints (v : pyval) : bool :=
  match v with
  | PInt z => (Z.abs z <? 10 ^ 4300)%Z
  | PList l => forallb small_ints l
  | PDict d => forallb (fun kv => small_ints kv.2) d
  | _ => true
  end.

End Limits.

Section RunNotions.
Context {FM : PyFloat}.

Definition is_add (a : action * write_fault) : bool :=
  match a.1 with AddItem _ _ _ _ _ _ => true | _ => false end.

Definition is_delete (a : action * write_fault) : bool :=
  match a.1 with DeleteItem _ => true | _ => false end.

(** A new session would start with the inventory of this one. *)
Definition in_sync (w : world) : Prop :=
  load (file w) = Ok (store_value (inventory w)).

(** The strings of an "Add Item" are texts in the sense of [valid_str]. *)
Definition valid_action (a : action) : Prop :=
  match a with
  | AddItem item_name category _ _ care_instructions now =>
      valid_str item_name = true /\ valid_str category = true
      /\ valid_str care_instructions = true /\ valid_str now = true
  | _ => True
  end.

(** The action reaches [save_inventory]: every action does, but a price
    update for an id that no item has. *)
Definition saves (w : world) (a : action) : Prop :=
  match a with
  | UpdatePrice x _ => x ∈ id_options (inventory w)
  | _ => True
  end.

(** The "Add Item" that enters the fields of [row], and [row] under
    another id. *)
Definition add_of (row : item) : action :=
  AddItem (name row) (category row) (quantity row) (price row)
    (care_instructions row) (date_added row).

Definition with_id (row : item) (z : Z) : item :=
  {| id := z; name := name row; category := category row;
     quantity := quantity row; price := price row;
     care_instructions := care_instructions row; date_added := date_added row |}.

End RunNotions.

(** ** A session that builds the store of the scenario *)

Definition add_fern : @action half_floats :=
  AddItem (py "Fern") (py "Plants") 2 (half 9) (py "Keep moist") (py "2024-05-01 09:30:00").

Definition add_goldfish : @action half_floats :=
  AddItem (py "Goldfish") (py "Aquatic Life") 3 (half 4) [] (py "2024-05-01 09:31:00").

Definition session : list (@action half_floats * write_fault) :=
  [(add_fern, NoFault); (UpdatePrice 1 (half 9), NoFault); (add_goldfish, NoFault)].

(** * Theorems *)

(** ** Decimal digits and number literals *)

(** Decide the comparisons of a boolean test from the facts at hand. *)
Ltac decide_tests :=
  repeat match goal with
  | |- context [?a =? ?b] =>
      first [ replace (a =? b) with true by (symmetry; apply N.eqb_eq; lia)
            | replace (a =? b) with false by (symmetry; apply N.eqb_neq; lia) ]
  | |- context [?a <=? ?b] =>
      first [ replace (a <=? b) with true by (symmetry; apply N.leb_le; lia)
            | replace (a <=? b) with false by (symmetry; apply N.leb_gt; lia) ]
  | |- context [?a <? ?b] =>
      first [ replace (a <? b) with true by (symmetry; apply N.ltb_lt; lia)
            | replace (a <? b) with false by (symmetry; apply N.ltb_ge; lia) ]
  end.

Lemma is_digit_bounds c : is_digit c = true <-> 48 <= c <= 57.
Proof. unfold is_digit. rewrite andb_true_iff, !N.leb_le. done. Qed.

Lemma is_digit_false c : is_digit c = false <-> c < 48 \/ 57 < c.
Proof. unfold is_digit. rewrite andb_false_iff, !N.leb_gt. done. Qed.

Lemma digits_all_digits u : Forall (fun c => is_digit c = true) (digits u).
Proof. induction u; cbn; constructor; auto. Qed.

Lemma span_digits_app (ds rest : str) :
  Forall (fun c => is_digit c = true) ds ->
  ~ starts_with_digit rest ->
  span_digits (ds ++ rest) = (ds, rest).
Proof.
  intros Hds Hrest. induction Hds as [|c ds Hc _ IH]; cbn.
  - destruct rest as [|c rest]; [done|]. cbn in *.
    by destruct (is_digit c).
  - by rewrite Hc, IH.
Qed.

Lemma uint_of_digits_digits u : uint_of_digits (digits u) = u.
Proof. induction u; cbn; congruence. Qed.

Lemma nzhead_fixed_canonical u : nzhead u = u -> u <> Nil -> canonical u.
Proof.
  intros Hnz Hnil. right. destruct u; cbn; try done; try (eexists _, _; split; [done|lia]).
  by destruct (nzhead_nonzero (D0 u) u).
Qed.

Lemma unorm_fixed_canonical u : unorm u = u -> canonical u.
Proof.
  intros Hu. unfold unorm in Hu.
  destruct (nzhead u) eqn:Hnz; try (apply nzhead_fixed_canonical; congruence).
  left. by rewrite <- Hu.
Qed.

Lemma to_int_canonical z :
  match Z.to_int z with
  | Pos u => canonical u
  | Neg u => canonical u /\ u <> D0 Nil
  end.
Proof.
  pose proof (DecimalZ.to_of (Z.to_int z)) as Hnorm. rewrite DecimalZ.of_to in Hnorm.
  destruct (Z.to_int z) as [u|u]; cbn in Hnorm.
  - apply unorm_fixed_canonical. congruence.
  - destruct (nzhead u) eqn:Hnz; try discriminate;
      (split; [apply nzhead_fixed_canonical; congruence|]);
      intros ->; discriminate.
Qed.

Lemma lex_digits_canonical u (rest : str) :
  canonical u -> ~ starts_with_digit rest ->
  lex_integer (digits u ++ rest) = Some (digits u, rest)
  /\ lex_integer (45 :: digits u ++ rest) = Some (45 :: digits u, rest).
Proof.
  intros [->|(c & ds & Hu & Hc)] Hrest; [done|].
  pose proof (digits_all_digits u) as Hall. rewrite Hu in *.
  apply Forall_cons in Hall as [_ Hall].
  unfold lex_integer, is_digit. cbn. decide_tests. cbn.
  by rewrite span_digits_app.
Qed.

Lemma number_ends_not_digit rest : number_ends rest -> ~ starts_with_digit rest.
Proof. destruct rest as [|c rest]; cbn; [tauto|]. intros [-> _]. done. Qed.

Lemma lex_frac_end rest : number_ends rest -> lex_frac rest = ([], rest).
Proof.
  destruct rest as [|c rest]; [done|]. intros (_ & Hdot & _). cbn.
  by decide_tests.
Qed.

Lemma lex_exp_end rest : number_ends rest -> lex_exp rest = ([], rest).
Proof.
  destruct rest as [|c rest]; [done|]. intros (_ & _ & He1 & He2). cbn.
  by decide_tests.
Qed.

Lemma lex_number_int_repr z rest :
  number_ends rest ->
  lex_number (int_repr z ++ rest) = Some (int_repr z, [], [], rest).
Proof.
  intros Hrest. pose proof (to_int_canonical z) as Hcanon.
  pose proof (number_ends_not_digit _ Hrest) as Hnd.
  unfold lex_number, int_repr.
  destruct (Z.to_int z) as [u|u].
  - destruct (lex_digits_canonical u rest Hcanon Hnd) as [-> _].
    by rewrite lex_frac_end, lex_exp_end.
  - destruct Hcanon as [Hcanon _].
    destruct (lex_digits_canonical u rest Hcanon Hnd) as [_ Hlex].
    change ((45 :: digits u) ++ rest) with (45 :: digits u ++ rest). rewrite Hlex.
    by rewrite lex_frac_end, lex_exp_end.
Qed.

Lemma int_of_str_repr z : int_of_str (int_repr z) = z.
Proof.
  pose proof (to_int_canonical z) as Hcanon.
  pose proof (DecimalZ.of_to z) as Hz.
  unfold int_of_str, int_repr.
  destruct (Z.to_int z) as [u|u].
  - destruct Hcanon as [->|(c & ds & Hu & Hc)]; [done|].
    rewrite Hu. decide_tests. by rewrite <- Hu, uint_of_digits_digits.
  - cbn. by rewrite uint_of_digits_digits.
Qed.

(** The first character of a number literal is a minus sign or a digit. *)
Lemma lex_integer_head s r :
  lex_integer s = Some r -> exists c s', s = c :: s' /\ (c = 45 \/ 48 <= c <= 57).
Proof.
  unfold lex_integer. destruct s as [|c s]; [done|].
  intros Hlex. eexists _, _. split; [done|].
  destruct (N.eqb_spec c 45); [by left|right].
  destruct (N.eqb_spec c 48); [lia|].
  destruct (is_digit c) eqn:Hd; [by apply is_digit_bounds|done].
Qed.

Lemma int_repr_head z : exists c s', int_repr z = c :: s' /\ (c = 45 \/ 48 <= c <= 57).
Proof.
  pose proof (lex_number_int_repr z [] I) as Hlex. rewrite app_nil_r in Hlex.
  unfold lex_number in Hlex.
  destruct (lex_integer (int_repr z)) as [r|] eqn:Hint; [|done].
  by apply lex_integer_head in Hint.
Qed.

(** ** String literals *)

Lemma hex_value_digit d : d < 16 -> hex_value (hex_digit d) = Some d.
Proof.
  intros Hd. unfold hex_value, hex_digit, is_digit.
  destruct (N.ltb_spec d 10); decide_tests; cbn; f_equal; lia.
Qed.

Lemma hex_digits_value n :
  n < 65536 ->
  ((n / 4096 mod 16 * 16 + n / 256 mod 16) * 16 + n / 16 mod 16) * 16 + n mod 16 = n.
Proof.
  intros Hn.
  replace (n / 4096) with (n / 16 / 16 / 16) by (rewrite !N.Div0.div_div; reflexivity).
  replace (n / 256) with (n / 16 / 16) by (rewrite !N.Div0.div_div; reflexivity).
  pose proof (N.div_mod' n 16). pose proof (N.mod_lt n 16).
  pose proof (N.div_mod' (n / 16) 16). pose proof (N.mod_lt (n / 16) 16).
  pose proof (N.div_mod' (n / 16 / 16) 16). pose proof (N.mod_lt (n / 16 / 16) 16).
  pose proof (N.div_mod' (n / 16 / 16 / 16) 16).
  pose proof (N.mod_lt (n / 16 / 16 / 16) 16).
  generalize dependent (n mod 16). generalize dependent (n / 16 mod 16).
  generalize dependent (n / 16 / 16 mod 16).
  generalize dependent (n / 16 / 16 / 16 mod 16).
  generalize dependent (n / 16 / 16 / 16 / 16). generalize dependent (n / 16 / 16 / 16).
  generalize dependent (n / 16 / 16). generalize dependent (n / 16). intros. lia.
Qed.

Lemma unhex4_hex4 n :
  n < 65536 ->
  unhex4 (hex_digit (n / 4096 mod 16)) (hex_digit (n / 256 mod 16))
         (hex_digit (n / 16 mod 16)) (hex_digit (n mod 16)) = Some n.
Proof.
  intros Hn. unfold unhex4.
  rewrite !hex_value_digit by (apply N.mod_lt; lia).
  by rewrite hex_digits_value.
Qed.

Lemma scanstring_u_escape n s3 :
  n < 65536 -> scanstring (92 :: 117 :: hex4 n ++ s3) = after_escape n s3.
Proof.
  intros Hn. unfold hex4. cbn [app].
  cbn [scanstring N.eqb Pos.eqb]. by rewrite unhex4_hex4.
Qed.

Lemma after_escape_single u s3 :
  no_low_escape s3 ->
  after_escape u s3 = '(cs, rest) ← scanstring s3; Ok (u :: cs, rest).
Proof.
  intros Hno. unfold after_escape. destruct (is_high_surrogate u); [|done].
  destruct s3 as [|b [|e' [|k1 [|k2 [|k3 [|k4 s4]]]]]]; try done.
  destruct (N.eqb_spec b 92) as [->|]; [|done].
  destruct (N.eqb_spec e' 117) as [->|]; [|done]. cbn [andb].
  by destruct (Hno _ _ _ _ _ eq_refl) as (u2 & -> & ->).
Qed.

Lemma after_escape_not_high u s3 :
  is_high_surrogate u = false ->
  after_escape u s3 = '(cs, rest) ← scanstring s3; Ok (u :: cs, rest).
Proof. unfold after_escape. by intros ->. Qed.

Lemma lor_shiftl_low a b n : b < 2 ^ n -> N.lor (N.shiftl a n) b = a * 2 ^ n + b.
Proof.
  intros Hb. rewrite <- N.lxor_lor, <- N.add_nocarry_lxor, N.shiftl_mul_pow2; try done.
  all: apply N.bits_inj; intros i; rewrite N.land_spec, N.bits_0;
    destruct (N.lt_ge_cases i n);
    [ by rewrite N.shiftl_spec_low
    | rewrite <- (N.mod_small b (2 ^ n)) by done;
      rewrite N.mod_pow2_bits_high by done; apply andb_false_r ].
Qed.

(** The two halves of a surrogate pair, as the encoder computes them. *)
Lemma surrogate_halves c :
  65536 <= c < 1114112 ->
  let n := c - 65536 in
  let s1 := N.lor 55296 (N.land (N.shiftr n 10) 1023) in
  let s2 := N.lor 56320 (N.land n 1023) in
  55296 <= s1 <= 56319 /\ 56320 <= s2 <= 57343
  /\ 65536 + N.lor (N.shiftl (s1 - 55296) 10) (s2 - 56320) = c.
Proof.
  intros Hc. cbn zeta.
  change 1023 with (N.ones 10). rewrite !N.land_ones, N.shiftr_div_pow2.
  change (2 ^ 10) with 1024.
  pose proof (N.mod_lt (c - 65536) 1024 ltac:(lia)).
  assert ((c - 65536) / 1024 < 1024) as Hq by (apply N.Div0.div_lt_upper_bound; lia).
  rewrite (N.mod_small _ 1024 Hq).
  pose proof (N.div_mod' (c - 65536) 1024) as Hdm.
  generalize dependent ((c - 65536) / 1024). generalize dependent ((c - 65536) mod 1024).
  intros r Hr q Hq Hdm.
  assert (N.lor 55296 q = 55296 + q) as ->
    by (change 55296 with (N.shiftl 54 10) at 1; by rewrite lor_shiftl_low).
  assert (N.lor 56320 r = 56320 + r) as ->
    by (change 56320 with (N.shiftl 55 10) at 1; by rewrite lor_shiftl_low).
  replace (55296 + q - 55296) with q by lia.
  replace (56320 + r - 56320) with r by lia.
  rewrite lor_shiftl_low by done. change (2 ^ 10) with 1024. lia.
Qed.

Lemma escape_char_cases c :
  c < 1114112 ->
  (escape_char c = [c] /\ c <> 34 /\ c <> 92 /\ 32 <= c)
  \/ (exists e, escape_char c = [92; e] /\ e <> 117 /\ unescape e = Some c)
  \/ (escape_char c = 92 :: 117 :: hex4 c /\ c < 65536)
  \/ (exists s1 s2,
        escape_char c = (92 :: 117 :: hex4 s1) ++ 92 :: 117 :: hex4 s2
        /\ 55296 <= s1 <= 56319 /\ 56320 <= s2 <= 57343
        /\ 65536 + N.lor (N.shiftl (s1 - 55296) 10) (s2 - 56320) = c).
Proof.
  intros Hc. unfold escape_char.
  destruct (N.eqb_spec c 34) as [->|]; [right; left; by exists 34|].
  destruct (N.eqb_spec c 92) as [->|]; [right; left; by exists 92|].
  destruct ((32 <=? c) && (c <=? 126)) eqn:Hprint.
  { left. apply andb_true_iff in Hprint as [?%N.leb_le _]. done. }
  destruct (N.eqb_spec c 10) as [->|]; [right; left; by exists 110|].
  destruct (N.eqb_spec c 13) as [->|]; [right; left; by exists 114|].
  destruct (N.eqb_spec c 9) as [->|]; [right; left; by exists 116|].
  destruct (N.eqb_spec c 8) as [->|]; [right; left; by exists 98|].
  destruct (N.eqb_spec c 12) as [->|]; [right; left; by exists 102|].
  destruct (N.ltb_spec c 65536); [by right; right; left|].
  right; right; right. eexists _, _. split; [reflexivity|].
  apply surrogate_halves. lia.
Qed.

Lemma scanstring_plain c t :
  c <> 34 -> c <> 92 -> 32 <= c ->
  scanstring (c :: t) = '(cs, rest) ← scanstring t; Ok (c :: cs, rest).
Proof. intros. cbn [scanstring]. by decide_tests. Qed.

Lemma scanstring_short e d t :
  e <> 117 -> unescape e = Some d ->
  scanstring (92 :: e :: t) = '(cs, rest) ← scanstring t; Ok (d :: cs, rest).
Proof. intros ? Hd. cbn [scanstring N.eqb Pos.eqb]. decide_tests. by rewrite Hd. Qed.

Lemma valid_str_cons c s :
  valid_str (c :: s) = true ->
  c < 1114112 /\ (is_high_surrogate c = true -> head_not_low s) /\ valid_str s = true.
Proof.
  cbn [valid_str]. rewrite !andb_true_iff, negb_true_iff, N.ltb_lt.
  intros [[? Hpair] ?]. repeat split; [done| |done].
  intros Hhigh. rewrite Hhigh in Hpair. by destruct s.
Qed.

Lemma no_low_escape_escaped s rest :
  valid_str s = true -> head_not_low s ->
  no_low_escape (concat (map escape_char s) ++ 34 :: rest).
Proof.
  intros Hvalid Hhead k1 k2 k3 k4 s4. destruct s as [|c s]; [done|].
  apply valid_str_cons in Hvalid as (Hc & _ & _). cbn in Hhead.
  cbn [map concat].
  destruct (escape_char_cases c Hc)
    as [(-> & ? & ? & ?)|[(e & -> & ? & ?)|[(-> & ?)|(s1 & s2 & -> & ? & ? & ?)]]];
    cbn; intros Heq; simplify_eq; try done.
  - exists c. by rewrite unhex4_hex4.
  - exists s1. rewrite unhex4_hex4 by lia. split; [done|].
    apply andb_false_iff. left. apply N.leb_gt. lia.
Qed.

(** [scanstring] reads back what the encoder wrote for a string. *)
Lemma scanstring_escaped s rest :
  valid_str s = true ->
  scanstring (concat (map escape_char s) ++ 34 :: rest) = Ok (s, rest).
Proof.
  induction s as [|c s IH]; [done|].
  intros (Hc & Hhigh & Hvalid)%valid_str_cons.
  specialize (IH Hvalid). cbn [map concat]. rewrite <- app_assoc.
  destruct (escape_char_cases c Hc)
    as [(-> & ? & ? & ?)|[(e & -> & ? & ?)|[(-> & ?)|(s1 & s2 & -> & ? & ? & Hjoin)]]].
  - cbn [app]. rewrite scanstring_plain by done. by rewrite IH.
  - cbn [app]. rewrite (scanstring_short e c) by done. by rewrite IH.
  - change ((92 :: 117 :: hex4 c) ++ ?t) with (92 :: 117 :: hex4 c ++ t).
    rewrite scanstring_u_escape by done.
    destruct (is_high_surrogate c) eqn:Hh.
    + rewrite after_escape_single by (apply no_low_escape_escaped; auto).
      by rewrite IH.
    + rewrite after_escape_not_high by done. by rewrite IH.
  - rewrite <- app_assoc.
    change ((92 :: 117 :: hex4 s1) ++ ?t) with (92 :: 117 :: hex4 s1 ++ t).
    rewrite scanstring_u_escape by lia.
    unfold after_escape.
    replace (is_high_surrogate s1) with true
      by (symmetry; apply andb_true_iff; split; apply N.leb_le; lia).
    unfold hex4 at 1. cbn [app N.eqb Pos.eqb andb].
    rewrite unhex4_hex4 by lia.
    replace (is_low_surrogate s2) with true
      by (symmetry; apply andb_true_iff; split; apply N.leb_le; lia).
    rewrite IH. cbn. by rewrite Hjoin.
Qed.

(** ** Values *)

Section CodecProofs.
Context {FM : PyFloat} {FL : PyFloatLaws FM}.

Lemma pyval_induction (P : pyval -> Prop) :
  P PNone -> (forall b, P (PBool b)) -> (forall z, P (PInt z)) ->
  (forall x, P (PFloat x)) -> (forall s, P (PStr s)) ->
  (forall l, Forall P l -> P (PList l)) ->
  (forall d, Forall (fun kv => P kv.2) d -> P (PDict d)) ->
  forall v, P v.
Proof.
  intros HN HB HI HF HS HL HD. fix IH 1.
  intros [|b|z|x|s|l|d]; [exact HN|apply HB|apply HI|apply HF|apply HS| |].
  - apply HL. induction l as [|v l IHl]; constructor; [apply IH|exact IHl].
  - apply HD. induction d as [|[k v] d IHd]; constructor; [apply IH|exact IHd].
Qed.

Lemma scan_once_S fuel c s1 :
  scan_once (S fuel) (c :: s1) =
    if c =? 34 then '(x, rest) ← scanstring s1; Ok (PStr x, rest)
    else if c =? 123 then
      match skip_ws s1 with
      | c' :: s2 =>
          if c' =? 125 then Ok (PDict [], s2)
          else if c' =? 34 then
            '(pairs, rest) ← object_members fuel s2;
            Ok (PDict (dict_of_pairs pairs), rest)
          else Raise JSONDecodeError
      | [] => Raise JSONDecodeError
      end
    else if c =? 91 then
      match skip_ws s1 with
      | c' :: s2 =>
          if c' =? 93 then Ok (PList [], s2)
          else '(values, rest) ← array_items fuel (c' :: s2); Ok (PList values, rest)
      | [] => Raise JSONDecodeError
      end
    else scan_atom (c :: s1).
Proof. reflexivity. Qed.

Lemma array_items_S fuel s :
  array_items (S fuel) s =
    '(value, s1) ← scan_once fuel s;
    match skip_ws s1 with
    | c :: s2 =>
        if c =? 93 then Ok ([value], s2)
        else if c =? 44 then
          '(values, rest) ← array_items fuel (skip_ws s2); Ok (value :: values, rest)
        else Raise JSONDecodeError
    | [] => Raise JSONDecodeError
    end.
Proof. reflexivity. Qed.

Lemma object_members_S fuel s :
  object_members (S fuel) s =
    '(key, s1) ← scanstring s;
    match skip_ws s1 with
    | c :: s2 =>
        if c =? 58 then
          '(value, s3) ← scan_once fuel (skip_ws s2);
          match skip_ws s3 with
          | c' :: s4 =>
              if c' =? 125 then Ok ([(key, value)], s4)
              else if c' =? 44 then
                match skip_ws s4 with
                | q :: s5 =>
                    if q =? 34 then
                      '(pairs, rest) ← object_members fuel s5;
                      Ok ((key, value) :: pairs, rest)
                    else Raise JSONDecodeError
                | [] => Raise JSONDecodeError
                end
              else Raise JSONDecodeError
          | [] => Raise JSONDecodeError
          end
        else Raise JSONDecodeError
    | [] => Raise JSONDecodeError
    end.
Proof. reflexivity. Qed.

Lemma float_repr_head (x : finite) :
  exists c t, float_repr x = c :: t /\ (c = 45 \/ 48 <= c <= 57).
Proof.
  destruct (float_repr_lex x [] I) as (i & f & e & Hlex & Hrepr & _).
  rewrite app_nil_r in Hlex. unfold lex_number in Hlex.
  destruct (lex_integer (float_repr x)) as [r|] eqn:Hint; [|done].
  by apply lex_integer_head in Hint.
Qed.

Lemma dumps_head v : exists c t, dumps v = c :: t /\ value_start c.
Proof.
  unfold value_start, atom_start.
  destruct v as [|[]|z|[x| | |]|s|l|d]; cbn;
    try (eexists _, _; split; [reflexivity|lia]).
  - destruct (int_repr_head z) as (c & t & -> & ?). eexists _, _. split; [done|lia].
  - destruct (float_repr_head x) as (c & t & -> & ?). eexists _, _. split; [done|lia].
Qed.

Lemma skip_ws_start c t : value_start c -> skip_ws (c :: t) = c :: t.
Proof.
  unfold value_start, atom_start. intros Hc. cbn. unfold is_ws.
  by decide_tests.
Qed.

Lemma skip_ws_dumps v rest : skip_ws (dumps v ++ rest) = dumps v ++ rest.
Proof.
  destruct (dumps_head v) as (c & t & -> & Hc). by apply skip_ws_start.
Qed.

Lemma strip_head_ne a p c t : a <> c -> strip (a :: p) (c :: t) = None.
Proof. intros. cbn. by decide_tests. Qed.

Lemma scan_atom_number c t v rest :
  c = 45 \/ 48 <= c <= 57 ->
  scan_number (c :: t) = Some (v, rest) ->
  scan_atom (c :: t) = Ok (v, rest).
Proof.
  intros Hc Hnum. unfold scan_atom, NULL, TRUE, FALSE.
  rewrite !strip_head_ne by lia. by rewrite Hnum.
Qed.

Lemma scan_atom_int z rest :
  number_ends rest -> scan_atom (int_repr z ++ rest) = Ok (PInt z, rest).
Proof.
  intros Hrest. pose proof (lex_number_int_repr z rest Hrest) as Hlex.
  destruct (int_repr_head z) as (c & t & Hz & Hc). rewrite Hz in *. cbn [app] in *.
  apply scan_atom_number; [done|].
  unfold scan_number. rewrite Hlex, <- Hz. by rewrite int_of_str_repr.
Qed.

Lemma scan_atom_float x rest :
  number_ends rest -> scan_atom (floatstr x ++ rest) = Ok (PFloat x, rest).
Proof.
  intros Hrest. destruct x as [x| | |]; [|done..]. cbn [floatstr].
  destruct (float_repr_lex x rest Hrest) as (i & f & e & Hlex & Hrepr & Hfe).
  destruct (float_repr_head x) as (c & t & Hx & Hc).
  rewrite Hx in Hlex |- *. cbn [app] in *.
  apply scan_atom_number; [done|].
  assert (float_of_literal (i ++ f ++ e) = Finite x) as Hlit
    by (rewrite <- Hrepr; apply float_of_repr).
  unfold scan_number. rewrite Hlex.
  destruct f, e; try (by rewrite Hlit); by destruct Hfe.
Qed.

Lemma scan_once_atom fuel c t :
  atom_start c -> scan_once (S fuel) (c :: t) = scan_atom (c :: t).
Proof.
  unfold atom_start. intros Hc. rewrite scan_once_S. by decide_tests.
Qed.

Lemma dict_set_fresh (d : list (str * pyval)) k v :
  k ∉ d.*1 -> dict_set d k v = d ++ [(k, v)].
Proof.
  induction d as [|[k' v'] d IH]; [done|]. cbn. intros Hk.
  apply not_elem_of_cons in Hk as [? ?].
  rewrite decide_False by done. by rewrite IH.
Qed.

Lemma dict_fold_distinct (d acc : list (str * pyval)) :
  NoDup (acc ++ d).*1 ->
  fold_left (fun d kv => dict_set d kv.1 kv.2) d acc = acc ++ d.
Proof.
  revert acc. induction d as [|[k v] d IH]; intros acc Hnd; cbn.
  - by rewrite app_nil_r.
  - assert (k ∉ acc.*1) as Hfresh.
    { rewrite fmap_app in Hnd. apply NoDup_app in Hnd as (_ & Hdisj & _).
      intros Hin. apply (Hdisj _ Hin). left. }
    rewrite dict_set_fresh by done.
    rewrite IH; rewrite <- app_assoc; done.
Qed.

Lemma dict_of_pairs_distinct (d : list (str * pyval)) :
  NoDup d.*1 -> dict_of_pairs d = d.
Proof. intros Hnd. by apply (dict_fold_distinct d []). Qed.

Lemma join_dumps_head (l : list pyval) :
  l <> [] -> exists c t, join ITEM_SEPARATOR (map dumps l) = c :: t /\ value_start c.
Proof.
  destruct l as [|v l]; [done|]. intros _.
  destruct (dumps_head v) as (c & t & Hv & Hc).
  destruct l; cbn [map join]; rewrite Hv; eexists _, _; (split; [reflexivity|done]).
Qed.

Lemma array_items_join (l : list pyval) :
  l <> [] -> Forall reads_back l ->
  forall (fuel : nat) (rest : str),
    (sum_list (map (fun x => S (cost x)) l) <= fuel)%nat ->
    array_items fuel (join ITEM_SEPARATOR (map dumps l) ++ 93 :: rest) = Ok (l, rest).
Proof.
  induction l as [|v l IH]; [done|]. intros _ Hall fuel rest Hfuel.
  apply Forall_cons in Hall as [Hv Hall]. cbn -[cost] in Hfuel.
  destruct fuel as [|fuel]; [lia|]. rewrite array_items_S.
  destruct l as [|v' l].
  - cbn [map join]. rewrite Hv; [done|cbn -[cost] in Hfuel; lia|done].
  - change (join ITEM_SEPARATOR (map dumps (v :: v' :: l)))
      with (dumps v ++ 44 :: 32 :: join ITEM_SEPARATOR (map dumps (v' :: l))).
    rewrite <- app_assoc. rewrite Hv; [|lia|done].
    cbn [mbind result_bind app skip_ws is_ws N.eqb Pos.eqb orb].
    destruct (join_dumps_head (v' :: l)) as (c & t & Hj & Hc); [done|].
    rewrite Hj. cbn [app]. rewrite skip_ws_start by done.
    change (c :: t ++ 93 :: rest) with ((c :: t) ++ 93 :: rest). rewrite <- Hj.
    rewrite IH; [done|done|done|lia].
Qed.

Lemma object_members_join (d : list (str * pyval)) :
  d <> [] ->
  Forall (fun kv => valid_str kv.1 = true /\ reads_back kv.2) d ->
  forall (fuel : nat) (rest : str),
    (sum_list (map (fun kv => S (cost kv.2)) d) <= fuel)%nat ->
    exists t,
      join ITEM_SEPARATOR (map member d) ++ 125 :: rest = 34 :: t
      /\ object_members fuel t = Ok (d, rest).
Proof.
  induction d as [|[k v] d IH]; [done|]. intros _ Hall fuel rest Hfuel.
  apply Forall_cons in Hall as [[Hk Hv] Hall]. cbn [fst snd] in Hk, Hv. cbn -[cost] in Hfuel.
  destruct fuel as [|fuel]; [lia|].
  assert (forall tail : str, number_ends tail ->
            object_members (S fuel)
              (concat (map escape_char k) ++ 34 :: 58 :: 32 :: dumps v ++ tail)
            = match skip_ws tail with
              | c' :: s4 =>
                  if c' =? 125 then Ok ([(k, v)], s4)
                  else if c' =? 44 then
                    match skip_ws s4 with
                    | q :: s5 =>
                        if q =? 34 then
                          '(pairs, rest) ← object_members fuel s5;
                          Ok ((k, v) :: pairs, rest)
                        else Raise JSONDecodeError
                    | [] => Raise JSONDecodeError
                    end
                  else Raise JSONDecodeError
              | [] => Raise JSONDecodeError
              end) as Hstep.
  { intros tail Htail. rewrite object_members_S, scanstring_escaped by done.
    cbn [mbind result_bind skip_ws is_ws N.eqb Pos.eqb orb].
    rewrite skip_ws_dumps. rewrite Hv; [done|lia|done]. }
  destruct d as [|kv' d].
  - exists (concat (map escape_char k) ++ 34 :: 58 :: 32 :: dumps v ++ 125 :: rest).
    split.
    + cbn [map join]. unfold member, encode_string, KEY_SEPARATOR. cbn [fst snd].
      cbn [app]. by rewrite <- !app_assoc.
    + by rewrite Hstep.
  - destruct (IH ltac:(done) Hall fuel rest ltac:(lia)) as (t & Ht & Hmembers).
    exists (concat (map escape_char k) ++ 34 :: 58 :: 32 :: dumps v
            ++ 44 :: 32 :: 34 :: t).
    split.
    + change (join ITEM_SEPARATOR (map member ((k, v) :: kv' :: d)))
        with (member (k, v) ++ 44 :: 32 :: join ITEM_SEPARATOR (map member (kv' :: d))).
      rewrite <- app_assoc. cbn [app]. rewrite Ht.
      unfold member, encode_string, KEY_SEPARATOR. cbn [fst snd].
      cbn [app]. by rewrite <- !app_assoc.
    + rewrite Hstep by done.
      cbn [skip_ws is_ws N.eqb Pos.eqb orb]. by rewrite Hmembers.
Qed.

Theorem scan_once_dumps v : wf_val v -> reads_back v.
Proof.
  induction v as [|b|z|x|s|l IH|d IH] using pyval_induction;
    intros Hwf fuel rest Hfuel Hrest;
    (destruct fuel as [|fuel]; [cbn in Hfuel; lia|]).
  - done.
  - by destruct b.
  - cbn [dumps]. destruct (int_repr_head z) as (c & t & Hz & Hc).
    rewrite Hz. cbn [app]. rewrite scan_once_atom by (unfold atom_start; lia).
    change (c :: t ++ rest) with ((c :: t) ++ rest). rewrite <- Hz.
    by apply scan_atom_int.
  - cbn [dumps].
    assert (exists c t, floatstr x = c :: t /\ atom_start c) as (c & t & Hx & Hc).
    { unfold atom_start. destruct x as [x| | |]; cbn;
        try (eexists _, _; split; [reflexivity|lia]).
      destruct (float_repr_head x) as (c & t & -> & ?). eexists _, _. split; [done|lia]. }
    rewrite Hx. cbn [app]. rewrite scan_once_atom by done.
    change (c :: t ++ rest) with ((c :: t) ++ rest). rewrite <- Hx.
    by apply scan_atom_float.
  - inversion Hwf; subst. cbn [dumps]. unfold encode_string.
    cbn [app]. rewrite scan_once_S. cbn [N.eqb Pos.eqb].
    rewrite <- app_assoc. cbn [app]. by rewrite scanstring_escaped.
  - inversion Hwf as [| | | | |? Hall|]; subst.
    assert (Forall reads_back l) as Hreads.
    { apply Forall_forall. intros v Hv. rewrite Forall_forall in IH, Hall. auto. }
    cbn [dumps cost] in *. cbn [app]. rewrite scan_once_S. cbn [N.eqb Pos.eqb].
    rewrite <- app_assoc. cbn [app].
    destruct (decide (l = [])) as [->|Hne]; [done|].
    destruct (join_dumps_head l Hne) as (c & t & Hj & Hc).
    rewrite Hj. cbn [app]. rewrite skip_ws_start by done.
    replace (c =? 93) with false
      by (unfold value_start, atom_start in Hc; symmetry; apply N.eqb_neq; lia).
    change (c :: t ++ 93 :: rest) with ((c :: t) ++ 93 :: rest). rewrite <- Hj.
    rewrite array_items_join; [done|done|done|lia].
  - inversion Hwf as [| | | | | |? Hnd Hall]; subst.
    assert (Forall (fun kv => valid_str kv.1 = true /\ reads_back kv.2) d) as Hreads.
    { apply Forall_forall. intros kv Hkv. rewrite Forall_forall in IH, Hall.
      destruct (Hall kv Hkv). auto. }
    cbn [dumps cost] in *. cbn [app]. rewrite scan_once_S. cbn [N.eqb Pos.eqb].
    rewrite <- app_assoc. cbn [app].
    destruct (decide (d = [])) as [->|Hne]; [done|].
    destruct (object_members_join d Hne Hreads fuel rest) as (t & Ht & Hmembers); [lia|].
    unfold member in Ht. rewrite Ht.
    cbn [skip_ws is_ws N.eqb Pos.eqb orb]. rewrite Hmembers.
    cbn. by rewrite dict_of_pairs_distinct.
Qed.


Lemma dumps_nonempty v : (1 <= length (dumps v))%nat.
Proof. destruct (dumps_head v) as (c & t & -> & _). cbn. lia. Qed.

Lemma length_join_dumps (l : list pyval) :
  Forall (fun v => (cost v <= length (dumps v))%nat) l ->
  (sum_list (map (fun x => S (cost x)) l)
   <= length (join ITEM_SEPARATOR (map dumps l)) + 1)%nat.
Proof.
  induction 1 as [|v l Hv Hall IH]; [cbn; lia|].
  destruct l as [|v' l]; [cbn -[cost dumps]; lia|].
  change (join ITEM_SEPARATOR (map dumps (v :: v' :: l)))
    with (dumps v ++ 44 :: 32 :: join ITEM_SEPARATOR (map dumps (v' :: l))).
  rewrite length_app. cbn -[cost dumps join] in *. lia.
Qed.

Lemma length_join_members (d : list (str * pyval)) :
  Forall (fun kv => (cost kv.2 <= length (dumps kv.2))%nat) d ->
  (sum_list (map (fun kv => S (cost kv.2)) d)
   <= length (join ITEM_SEPARATOR (map member d)) + 1)%nat.
Proof.
  induction 1 as [|[k v] d Hv Hall IH]; [cbn; lia|].
  assert (S (cost v) <= length (member (k, v)))%nat as Hmember.
  { unfold member, encode_string. cbn [fst snd] in *.
    rewrite !length_app. cbn -[cost dumps]. lia. }
  destruct d as [|kv' d]; [cbn -[cost dumps member]; lia|].
  change (join ITEM_SEPARATOR (map member ((k, v) :: kv' :: d)))
    with (member (k, v) ++ 44 :: 32 :: join ITEM_SEPARATOR (map member (kv' :: d))).
  rewrite length_app. cbn -[cost dumps join member] in *. lia.
Qed.

(** The fuel a value needs is at most the length of its text. *)
Lemma cost_le_length v : (cost v <= length (dumps v))%nat.
Proof.
  induction v as [|b|z|x|s|l IH|d IH] using pyval_induction;
    try (cbn [cost]; apply dumps_nonempty).
  - pose proof (length_join_dumps l IH). cbn [cost dumps].
    cbn [length]. rewrite length_app. cbn [length]. lia.
  - pose proof (length_join_members d IH). cbn [cost dumps].
    cbn [length]. rewrite length_app. cbn [length].
    change (fun kv : list N * pyval => encode_string kv.1 ++ KEY_SEPARATOR ++ dumps kv.2)
      with member. lia.
Qed.

(** [json.loads] undoes [json.dumps]. *)
Theorem loads_dumps v : wf_val v -> loads (dumps v) = Ok v.
Proof.
  intros Hwf. unfold loads.
  pose proof (cost_le_length v) as Hcost.
  pose proof (scan_once_dumps v Hwf (2 * length (dumps v) + 1)%nat []) as Hscan.
  rewrite app_nil_r in Hscan.
  destruct (dumps_head v) as (c & t & Hv & Hc). rewrite Hv in *.
  unfold starts_with_bom.
  replace (c =? 65279) with false
    by (unfold value_start, atom_start in Hc; symmetry; apply N.eqb_neq; lia).
  rewrite skip_ws_start by done.
  rewrite Hscan; [done|lia|done].
Qed.

End CodecProofs.

(** ** The floats [n + 1/2] satisfy the laws *)

Lemma uint_of_digits_app u c (t : str) :
  is_digit c = false -> uint_of_digits (digits u ++ c :: t) = u.
Proof.
  intros Hc%is_digit_false. induction u; cbn; try congruence.
  by decide_tests.
Qed.

Lemma to_uint_canonical n : canonical (N.to_uint n).
Proof.
  apply unorm_fixed_canonical.
  rewrite <- DecimalN.Unsigned.to_of. by rewrite DecimalN.Unsigned.of_to.
Qed.

Lemma half_floats_laws : PyFloatLaws half_floats.
Proof.
  split.
  - intros x rest Hrest. exists (digits (N.to_uint x)), [46; 53], [].
    cbn [float_repr half_floats]. unfold half_repr. rewrite app_nil_r.
    split; [|split; [done|by left]].
    unfold lex_number. rewrite <- app_assoc.
    destruct (lex_digits_canonical (N.to_uint x) ([46; 53] ++ rest)) as [-> _];
      [apply to_uint_canonical|cbn; done|].
    pose proof (number_ends_not_digit _ Hrest) as Hnd.
    cbn [app lex_frac N.eqb Pos.eqb].
    change (53 :: rest) with ([53] ++ rest).
    rewrite span_digits_app by (done || by repeat constructor).
    by rewrite lex_exp_end.
  - intros x. cbn [float_repr float_of_literal half_floats].
    unfold half_repr, half_of_literal.
    rewrite uint_of_digits_app by done.
    by rewrite DecimalN.Unsigned.of_to.
Qed.

(** ** The decoder consumes text and does not run out of fuel *)

Lemma skip_ws_length s : (length (skip_ws s) <= length s)%nat.
Proof. induction s as [|c s IH]; cbn; [lia|]. destruct (is_ws c); cbn; lia. Qed.

Lemma strip_length p s r : strip p s = Some r -> length s = (length p + length r)%nat.
Proof.
  revert s. induction p as [|a p IH]; intros [|b s]; cbn; try done;
    try (intros ?; by simplify_eq).
  destruct (a =? b); [|done]. intros ?%IH. lia.
Qed.

Lemma span_digits_length s :
  length s = (length (span_digits s).1 + length (span_digits s).2)%nat.
Proof.
  induction s as [|c s IH]; cbn; [done|].
  destruct (is_digit c); [|done]. destruct (span_digits s). cbn in *. lia.
Qed.

Lemma lex_integer_length s i r :
  lex_integer s = Some (i, r) -> (length r < length s)%nat.
Proof.
  unfold lex_integer. intros Hlex.
  destruct s as [|c s]; [done|].
  destruct (c =? 45).
  - destruct s as [|c' s]; [done|]. destruct (c' =? 48); [simplify_eq; cbn; lia|].
    destruct (is_digit c'); [|done]. pose proof (span_digits_length s).
    destruct (span_digits s). simplify_eq. cbn in *. lia.
  - destruct (c =? 48); [simplify_eq; cbn; lia|].
    destruct (is_digit c); [|done]. pose proof (span_digits_length s).
    destruct (span_digits s). simplify_eq. cbn in *. lia.
Qed.

Lemma lex_frac_length s : (length (lex_frac s).2 <= length s)%nat.
Proof.
  destruct s as [|c s]; [done|]. cbn. destruct (c =? 46); [|done].
  pose proof (span_digits_length s). destruct (span_digits s) as [[|d ds] r]; cbn in *; lia.
Qed.

Lemma lex_exp_length s : (length (lex_exp s).2 <= length s)%nat.
Proof.
  destruct s as [|c s]; [done|]. cbn. destruct ((c =? 101) || (c =? 69)); [|done].
  destruct s as [|d s]; [done|].
  destruct ((d =? 45) || (d =? 43)).
  - pose proof (span_digits_length s).
    destruct (span_digits s) as [[|? ?] r]; cbn in *; lia.
  - pose proof (span_digits_length (d :: s)).
    destruct (span_digits (d :: s)) as [[|? ?] r]; cbn in *; lia.
Qed.

Lemma lex_number_length s i f e r :
  lex_number s = Some (i, f, e, r) -> (length r < length s)%nat.
Proof.
  unfold lex_number. destruct (lex_integer s) as [[i' s1]|] eqn:Hint; [|done].
  apply lex_integer_length in Hint.
  pose proof (lex_frac_length s1). destruct (lex_frac s1) as [f' s2].
  pose proof (lex_exp_length s2). destruct (lex_exp s2) as [e' s3].
  intros ?. simplify_eq. cbn in *. lia.
Qed.

Section Progress.
Context {FM : PyFloat}.

Lemma scan_number_length s v r :
  scan_number s = Some (v, r) -> (length r < length s)%nat.
Proof.
  unfold scan_number. destruct (lex_number s) as [[[[i f] e] r']|] eqn:Hlex; [|done].
  apply lex_number_length in Hlex.
  destruct f, e; intros ?; by simplify_eq.
Qed.

Lemma scan_atom_progress s fuel bound : progresses (scan_atom s) s fuel bound.
Proof.
  unfold scan_atom.
  repeat match goal with
  | |- context [strip ?p s] =>
      let H := fresh in
      destruct (strip p s) eqn:H;
      [apply strip_length in H; cbn in *; lia|clear H]
  | |- context [scan_number s] =>
      let H := fresh in
      destruct (scan_number s) as [[? ?]|] eqn:H;
      [apply scan_number_length in H; cbn in *; lia|clear H]
  end.
  by left.
Qed.

Lemma progresses_cons (s t : str) (c : char) fuel bound :
  progresses (scanstring t) t fuel bound -> (length t < length s)%nat ->
  progresses ('(cs, rest) ← scanstring t; Ok (c :: cs, rest)) s fuel bound.
Proof.
  unfold progresses. destruct (scanstring t) as [[? ?]|?]; cbn; [lia|done].
Qed.

Lemma progresses_raise {A} (s : str) fuel bound :
  progresses (A := A) (Raise JSONDecodeError) s fuel bound.
Proof. by left. Qed.

Lemma scanstring_progress s fuel bound : progresses (scanstring s) s fuel bound.
Proof.
  remember (length s) as n eqn:Hn. revert s Hn.
  induction n as [n IH] using lt_wf_ind. intros s ->.
  assert (forall (t : str) (c : char), (length t < length s)%nat ->
            progresses ('(cs, rest) ← scanstring t; Ok (c :: cs, rest)) s fuel bound)
    as Hcons.
  { intros t c Ht. apply progresses_cons; [|done]. by apply (IH (length t)). }
  clear IH.
  destruct s as [|c s1]; [by left|]. cbn [scanstring].
  destruct (c =? 34); [cbn; lia|].
  destruct (c =? 92).
  - destruct s1 as [|e s2]; [by left|]. destruct (e =? 117).
    + destruct s2 as [|h1 [|h2 [|h3 [|h4 s3]]]]; try by left.
      destruct (unhex4 h1 h2 h3 h4) as [u|]; [|by left].
      destruct (is_high_surrogate u); [|apply Hcons; cbn; lia].
      destruct s3 as [|b [|e' [|k1 [|k2 [|k3 [|k4 s4]]]]]];
        try (apply Hcons; cbn; lia).
      destruct ((b =? 92) && (e' =? 117)); [|apply Hcons; cbn; lia].
      destruct (unhex4 k1 k2 k3 k4); [|by left].
      destruct (is_low_surrogate _); apply Hcons; cbn; lia.
    + destruct (unescape e); [|by left]. apply Hcons. cbn. lia.
  - destruct (c <=? 31); [by left|]. apply Hcons. cbn. lia.
Qed.

(** Finish a [progresses] goal about a call whose own progress is [H]. *)
Ltac by_progress H :=
  unfold progresses in *; revert H;
  match goal with
  | |- context [mbind _ ?r] => destruct r as [[? ?]|?]
  | |- match ?r with _ => _ end -> _ => destruct r as [[? ?]|?]
  end;
  cbn in *; intros H; [lia|destruct H as [->|[-> ?]]; [by left|right; split; [done|lia]]].

Lemma decoder_progress (fuel : nat) :
  (forall s, progresses (scan_once fuel s) s fuel (2 * length s + 1))
  /\ (forall s, progresses (array_items fuel s) s fuel (2 * length s + 2))
  /\ (forall s, progresses (object_members fuel s) s fuel (2 * length s + 2)).
Proof.
  induction fuel as [|fuel (IHs & IHa & IHo)].
  { repeat split; intros s; cbn; right; (split; [done|lia]). }
  repeat split; intros s.
  - destruct s as [|c s1]; [by left|]. rewrite scan_once_S.
    destruct (c =? 34).
    { pose proof (scanstring_progress s1 0 0) as H. by_progress H. }
    destruct (c =? 123).
    { pose proof (skip_ws_length s1). destruct (skip_ws s1) as [|c' s2]; [by left|].
      destruct (c' =? 125); [cbn in *; lia|]. destruct (c' =? 34); [|by left].
      specialize (IHo s2). by_progress IHo. }
    destruct (c =? 91).
    { pose proof (skip_ws_length s1). destruct (skip_ws s1) as [|c' s2]; [by left|].
      destruct (c' =? 93); [cbn in *; lia|].
      specialize (IHa (c' :: s2)). by_progress IHa. }
    pose proof (scan_atom_progress (c :: s1) 0 0) as H. by_progress H.
  - rewrite array_items_S. specialize (IHs s). unfold progresses in *.
    destruct (scan_once fuel s) as [[v s1]|e]; cbn [mbind result_bind];
      [|destruct IHs as [->|[-> ?]]; [by left|right; split; [done|lia]]].
    pose proof (skip_ws_length s1). destruct (skip_ws s1) as [|c s2]; [by left|].
    destruct (c =? 93); [cbn in *; lia|]. destruct (c =? 44); [|by left].
    pose proof (skip_ws_length s2). specialize (IHa (skip_ws s2)). by_progress IHa.
  - rewrite object_members_S.
    pose proof (scanstring_progress s 0 0) as Hkey. unfold progresses in Hkey.
    destruct (scanstring s) as [[key s1]|e]; cbn [mbind result_bind];
      [|destruct Hkey as [->|[-> ?]]; [by left|lia]].
    pose proof (skip_ws_length s1). destruct (skip_ws s1) as [|c s2]; [by left|].
    destruct (c =? 58); [|by left].
    pose proof (skip_ws_length s2). specialize (IHs (skip_ws s2)). unfold progresses in *.
    destruct (scan_once fuel (skip_ws s2)) as [[v s3]|e]; cbn [mbind result_bind];
      [|destruct IHs as [->|[-> ?]]; [by left|right; split; [done|cbn in *; lia]]].
    pose proof (skip_ws_length s3). destruct (skip_ws s3) as [|c' s4]; [by left|].
    destruct (c' =? 125); [cbn in *; lia|]. destruct (c' =? 44); [|by left].
    pose proof (skip_ws_length s4). destruct (skip_ws s4) as [|q s5]; [by left|].
    destruct (q =? 34); [|by left].
    specialize (IHo s5). by_progress IHo.
Qed.

(** The [loads] of the model never runs out of fuel: when it raises, it
    raises [JSONDecodeError]. *)
Theorem loads_raises_decode_error s e : loads s = Raise e -> e = JSONDecodeError.
Proof.
  unfold loads. destruct (starts_with_bom s); [congruence|].
  destruct (decoder_progress (2 * length s + 1)) as (Hs & _ & _).
  specialize (Hs (skip_ws s)). pose proof (skip_ws_length s). unfold progresses in Hs.
  destruct (scan_once _ _) as [[v rest]|e']; cbn.
  - destruct (skip_ws rest); congruence.
  - intros [= ->]. destruct Hs as [->|[-> ?]]; [done|lia].
Qed.
End Progress.

(** ** The backing file: loading and saving *)

Section Persist.
Context {FM : PyFloat} {FL : PyFloatLaws FM}.

Lemma item_value_wf (it : item) : valid_item it -> wf_val (item_value it).
Proof.
  intros (Hn & Hc & Hi & Hd). unfold item_value. constructor.
  - apply (bool_decide_unpack _). by vm_compute.
  - repeat constructor; cbn [fst snd]; done.
Qed.

Lemma store_value_wf (inventory : list item) :
  Forall valid_item inventory -> wf_val (store_value inventory).
Proof.
  intros Hall. constructor. apply Forall_fmap.
  eapply Forall_impl; [exact Hall|]. intros it. apply item_value_wf.
Qed.

Lemma item_value_inj (a b : item) : item_value a = item_value b -> a = b.
Proof.
  destruct a, b. unfold item_value. cbn. intros Heq.
  injection Heq as -> -> -> -> -> -> ->. reflexivity.
Qed.

Lemma store_value_inj (l k : list item) : store_value l = store_value k -> l = k.
Proof.
  unfold store_value. intros [= Hmap]. revert k Hmap.
  induction l as [|a l IH]; intros [|b k] Hmap; cbn [map] in Hmap; try done.
  assert (item_value a = item_value b) as Ha by congruence.
  assert (map item_value l = map item_value k) as Hrest by congruence.
  f_equal; [by apply item_value_inj|by apply IH].
Qed.

(** C8.  After a save that goes through, loading the backing file returns
    the list of the saved items, each with the seven fields it was saved
    with: the loaded value is the value of the session's inventory, and
    only that inventory has this value. *)
Theorem save_then_load_round_trip (w : world) :
  Forall valid_item (inventory w) ->
  load (file (save_inventory NoFault w).1) = Ok (store_value (inventory w))
  /\ forall inventory' : list item,
       store_value inventory' = store_value (inventory w) -> inventory' = inventory w.
Proof.
  intros Hvalid. split; [|intros inventory'; apply store_value_inj].
  unfold save_inventory, load. cbn [fst file]. by apply loads_dumps, store_value_wf.
Qed.

(** C3, as the code has it.  Without a backing file the load returns the
    empty list.  With a backing file the load is [json.load] on the text
    of the file and nothing else: what [json.load] returns is kept as it
    is, whether or not it is a list of items, as a list of numbers and an
    empty object are; and what [json.load] raises is raised.  It raises
    [JSONDecodeError] on a text that is empty or blank, and on the text
    [not json]. *)
Theorem load_returns_what_json_parses :
  load None = Ok (PList [])
  /\ (forall text : str, load (Some text) = loads text)
  /\ load (Some (py "[1, 2]")) = Ok (PList [PInt 1; PInt 2])
  /\ load (Some (py "{}")) = Ok (PDict [])
  /\ (forall text : str, skip_ws text = [] -> load (Some text) = Raise JSONDecodeError)
  /\ load (Some (py "not json")) = Raise JSONDecodeError.
Proof.
  split; [done|]. split; [done|]. split; [by vm_compute|]. split; [by vm_compute|].
  split; [|by vm_compute].
  intros text Hblank. unfold load, loads.
  assert (starts_with_bom text = false) as ->.
  { destruct text as [|c text]; [done|]. cbn in *.
    destruct (c =? 65279) eqn:Hc; [|done].
    apply N.eqb_eq in Hc as ->. done. }
  by rewrite Hblank, Nat.add_1_r.
Qed.

End Persist.

(** ** Lists: what a filter keeps *)

Section Filter.
Context {A : Type} (P : A -> Prop) `{!forall x, Decision (P x)}.

Lemma filter_sublist_mono (l k : list A) :
  l `sublist_of` k -> filter P l `sublist_of` filter P k.
Proof.
  induction 1 as [|x l k _ IH|x l k _ IH]; [done| |].
  - rewrite !filter_cons. destruct (decide (P x)); [by constructor|done].
  - rewrite (filter_cons _ x k). destruct (decide (P x)); [by constructor|done].
Qed.

Lemma filter_Forall_id (l : list A) : Forall P l -> filter P l = l.
Proof.
  induction 1 as [|x l Hx _ IH]; [done|].
  by rewrite filter_cons_True, IH.
Qed.

Lemma Forall_filter_keeps (l : list A) : Forall P (filter P l).
Proof. apply Forall_forall. intros x Hx. by apply list_elem_of_filter in Hx as [? _]. Qed.

(** [filter P l] is the largest subsequence of [l] whose elements all
    satisfy [P]. *)
Lemma filter_largest (l k : list A) :
  k `sublist_of` l -> Forall P k -> k `sublist_of` filter P l.
Proof.
  intros Hsub Hall. rewrite <- (filter_Forall_id k Hall).
  by apply filter_sublist_mono.
Qed.

End Filter.

(** ** The record store *)

Section Store.
Context {FM : PyFloat}.
Implicit Types (w : world) (io : write_fault) (x : Z) (p : pyfloat finite).

(** The session's inventory after a save is the one before it, whatever
    happens to the write. *)
Lemma save_inventory_memory io w : inventory (save_inventory io w).1 = inventory w.
Proof. by destruct io. Qed.

Lemma save_inventory_fails io w :
  io <> NoFault -> (save_inventory io w).2 = Raise OSError.
Proof. by destruct io. Qed.

(** C1.  After the delete operation the store is a subsequence of the old
    store (the kept records are unchanged and in their original order), no
    kept record has the given id (every match is removed, duplicates
    included), and every subsequence of the old store without that id is a
    subsequence of the new store (nothing else is removed). *)
Theorem delete_removes_exactly_the_matches x io w :
  let inventory' := inventory (delete_item x io w).1 in
  inventory' `sublist_of` inventory w
  /\ Forall (fun item => id item <> x) inventory'
  /\ forall kept : list item,
       kept `sublist_of` inventory w ->
       Forall (fun item => id item <> x) kept ->
       kept `sublist_of` inventory'.
Proof.
  cbn zeta. unfold delete_item. rewrite save_inventory_memory. cbn [inventory].
  unfold delete. split; [apply sublist_filter|].
  split; [apply Forall_filter_keeps|].
  intros kept. apply filter_largest.
Qed.

(** C10.  Deleting an id that no record of the store has leaves the
    sequence of records as it is. *)
Theorem delete_absent_id_unchanged x io w :
  (forall item, item ∈ inventory w -> id item <> x) ->
  inventory (delete_item x io w).1 = inventory w.
Proof.
  intros Habsent. unfold delete_item. rewrite save_inventory_memory. cbn [inventory].
  apply filter_Forall_id, Forall_forall, Habsent.
Qed.

(** C4.  The add operation appends one record to the store; its id is the
    size of the store before plus one, its date is the time of creation and
    its other fields are the supplied values, whatever they are; when the
    write goes through the operation completes without raising. *)
Theorem add_item_appends_new_record (item_name cat : str) (qty : Z) p
    (care now : str) io w :
  (exists item,
     inventory (add_item item_name cat qty p care now io w).1 = inventory w ++ [item]
     /\ id item = (Z.of_nat (length (inventory w)) + 1)%Z
     /\ date_added item = now
     /\ name item = item_name /\ category item = cat /\ quantity item = qty
     /\ price item = p /\ care_instructions item = care)
  /\ (add_item item_name cat qty p care now NoFault w).2 = Ok ().
Proof.
  split; [|done].
  eexists. unfold add_item. rewrite save_inventory_memory. cbn [inventory].
  split; [reflexivity|]. by cbn.
Qed.

(** C5.  Ids are not unique over the life of a store: from the empty
    store, two adds, the delete of the record with id 1 and one more add
    lead to a store whose two records both have id 2. *)
Theorem ids_repeat_after_delete (n1 c1 i1 t1 n2 c2 i2 t2 n3 c3 i3 t3 : str)
    (q1 q2 q3 : Z) (p1 p2 p3 : pyfloat finite) (io1 io2 io3 io4 : write_fault) :
  exists a b : item,
    inventory (run {| inventory := []; file := None |}
                 [(AddItem n1 c1 q1 p1 i1 t1, io1);
                  (AddItem n2 c2 q2 p2 i2 t2, io2);
                  (DeleteItem 1, io3);
                  (AddItem n3 c3 q3 p3 i3 t3, io4)]) = [a; b]
    /\ id a = 2%Z /\ id b = 2%Z.
Proof.
  eexists _, _. unfold run. cbn [fold_left step].
  unfold add_item, delete_item.
  repeat (rewrite save_inventory_memory; cbn [inventory fst]).
  cbn. repeat case_decide; try lia. done.
Qed.

Lemma update_prices_lookup (l : list item) x p (i : nat) :
  update_prices l x p !! i
  = (fun item => if decide (id item = x) then set_price item p else item) <$> l !! i.
Proof.
  revert i. induction l as [|item l IH]; intros [|i]; cbn; auto.
Qed.

Lemma update_prices_no_match (l : list item) x p :
  Forall (fun item => id item <> x) l -> update_prices l x p = l.
Proof.
  induction 1 as [|item l Hne _ IH]; cbn; [done|].
  by rewrite decide_False, IH.
Qed.

(** The inventory after the price update, with or without a match and
    whatever happens to the write. *)
Lemma update_price_memory x p io w :
  inventory (update_price x p io w).1 = update_prices (inventory w) x p.
Proof.
  unfold update_price.
  destruct (list_find _ _) as [[i item]|] eqn:Hfind.
  - by rewrite save_inventory_memory.
  - apply list_find_None in Hfind. cbn. by rewrite update_prices_no_match.
Qed.

(** C6.  The price update keeps the length and the order of the store; at
    every position the record keeps all its fields but the price, which
    becomes the new price when the id matches and stays otherwise, so that
    a record with another id is unchanged. *)
Theorem update_price_changes_only_price x p io w :
  let inventory' := inventory (update_price x p io w).1 in
  length inventory' = length (inventory w)
  /\ forall (i : nat) (item : item),
       inventory w !! i = Some item ->
       exists item',
         inventory' !! i = Some item'
         /\ id item' = id item /\ name item' = name item
         /\ category item' = category item /\ quantity item' = quantity item
         /\ care_instructions item' = care_instructions item
         /\ date_added item' = date_added item
         /\ price item' = (if decide (id item = x) then p else price item)
         /\ (id item <> x -> item' = item).
Proof.
  cbn zeta. rewrite update_price_memory. split.
  - induction (inventory w); cbn; congruence.
  - intros i item Hi. rewrite update_prices_lookup, Hi. cbn.
    eexists. split; [reflexivity|].
    destruct (decide (id item = x)); cbn; repeat split; congruence.
Qed.

(** C7.  With an empty selection the category filter returns its input;
    with a non-empty selection it returns the largest subsequence of its
    input whose records have a category in the selection. *)
Theorem filter_by_category_selects (df : list item) (c : str) (cs : list str) :
  filter_by_category df [] = df
  /\ let selected := filter_by_category df (c :: cs) in
     selected `sublist_of` df
     /\ Forall (fun row => category row ∈ c :: cs) selected
     /\ forall rows : list item,
          rows `sublist_of` df ->
          Forall (fun row => category row ∈ c :: cs) rows ->
          rows `sublist_of` selected.
Proof.
  split; [done|]. cbn zeta. unfold filter_by_category.
  split; [apply sublist_filter|].
  split; [apply Forall_filter_keeps|].
  intros rows. apply filter_largest.
Qed.

(** C9.  When the write fails, each of the three mutating operations
    raises, and the session's inventory is the mutated one: the new record
    is appended, the matching records are deleted, the prices are set. *)
Theorem mutation_survives_failed_write io w :
  io <> NoFault ->
  (forall (item_name cat : str) (qty : Z) p (care now : str),
     let r := add_item item_name cat qty p care now io w in
     r.2 = Raise OSError
     /\ inventory r.1
        = inventory w ++ [new_item (inventory w) item_name cat qty p care now])
  /\ (forall x,
        let r := delete_item x io w in
        r.2 = Raise OSError /\ inventory r.1 = delete (inventory w) x)
  /\ (forall x p,
        let r := update_price x p io w in
        inventory r.1 = update_prices (inventory w) x p
        /\ (Exists (fun item => id item = x) (inventory w) -> r.2 = Raise OSError)).
Proof.
  intros Hio. repeat split.
  - by apply save_inventory_fails.
  - unfold add_item. by rewrite save_inventory_memory.
  - by apply save_inventory_fails.
  - unfold delete_item. by rewrite save_inventory_memory.
  - apply update_price_memory.
  - intros Hex. unfold update_price.
    destruct (list_find _ _) as [[i item]|] eqn:Hfind.
    + by apply save_inventory_fails.
    + apply list_find_None in Hfind. apply Exists_exists in Hex as (item & Hin & Hid).
      rewrite Forall_forall in Hfind. by destruct (Hfind item Hin).
Qed.

End Store.

(** ** The name search *)

Section NameSearch.
Variable ignorecase : char -> char -> bool.

Lemma match_here_literal (term s : str) :
  match_here ignorecase (map Literal term) s = true
  <-> exists mid post,
        s = mid ++ post /\ Forall2 (fun c x => ignorecase c x = true) term mid.
Proof.
  revert s. induction term as [|c term IH]; intros s; cbn.
  - split; [|done]. intros _. exists [], s. by split.
  - destruct s as [|x s].
    + split; [done|]. intros (mid & post & Hs & Hmid).
      destruct mid; [inversion Hmid|done].
    + rewrite andb_true_iff, IH. split.
      * intros (Hx & mid & post & -> & Hmid). exists (x :: mid), post.
        split; [done|by constructor].
      * intros (mid & post & Hs & Hmid).
        destruct mid as [|y mid]; inversion Hmid; subst.
        injection Hs as -> ->. eauto.
Qed.

Lemma re_search_prefix (p : list atom) (s : str) :
  re_search ignorecase p s = true
  <-> exists pre rest, s = pre ++ rest /\ match_here ignorecase p rest = true.
Proof.
  induction s as [|x s IH]; cbn.
  - rewrite orb_false_r. split.
    + intros Hm. by exists [], [].
    + intros (pre & rest & Hs & Hm). symmetry in Hs.
      apply app_eq_nil in Hs as [_ ->]. done.
  - rewrite orb_true_iff, IH. split.
    + intros [Hm|(pre & rest & -> & Hm)].
      * by exists [], (x :: s).
      * by exists (x :: pre), rest.
    + intros (pre & rest & Hs & Hm). destruct pre as [|y pre].
      * left. cbn in Hs. by subst.
      * right. injection Hs as -> ->. eauto.
Qed.

(** A search for a pattern of literal characters is a search for a
    substring, up to case. *)
Lemma re_search_literal (term s : str) :
  re_search ignorecase (map Literal term) s = true
  <-> contains_ignorecase ignorecase term s.
Proof.
  rewrite re_search_prefix. unfold contains_ignorecase. split.
  - intros (pre & rest & -> & (mid & post & -> & Hmid)%match_here_literal).
    by exists pre, mid, post.
  - intros (pre & mid & post & -> & Hmid). exists pre, (mid ++ post).
    split; [done|]. apply match_here_literal. eauto.
Qed.

Lemma compile_atoms_plain (term : str) :
  Forall (fun c => is_special c = false) term ->
  compile_atoms term = Some (map Literal term).
Proof.
  induction 1 as [|c term Hc _ IH]; [done|]. cbn.
  assert ((c =? 46) = false) as ->.
  { unfold is_special in Hc. by repeat apply orb_false_elim in Hc as [Hc _]. }
  by rewrite Hc, IH.
Qed.

Lemma re_compile_plain (term : str) :
  Forall (fun c => is_special c = false) term ->
  re_compile term = Some (Ok (map Literal term)).
Proof.
  intros Hplain. unfold re_compile. destruct term as [|c term]; [done|].
  rewrite compile_atoms_plain by done.
  apply Forall_cons in Hplain as [Hc _].
  assert (is_repeat c = false) as ->; [|done].
  unfold is_special, is_repeat in *.
  destruct (c =? 42), (c =? 43), (c =? 63); try done;
    cbn in Hc; rewrite ?orb_true_r in Hc; done.
Qed.

Context {FM : PyFloat}.

(** On a term without special characters the name search returns the
    records, in their order, whose name contains the term up to case; the
    empty term returns all records. *)
Lemma filter_by_name_plain (df : list item) (term : str) :
  Forall (fun c => is_special c = false) term ->
  exists rows,
    filter_by_name ignorecase df term = Some (Ok rows)
    /\ rows `sublist_of` df
    /\ (forall row, row ∈ rows <-> row ∈ df /\ contains_ignorecase ignorecase term (name row))
    /\ (term = [] -> rows = df).
Proof.
  intros Hplain. unfold filter_by_name. destruct term as [|c term].
  - exists df. split; [done|]. split; [done|]. split; [|done].
    intros row. split; [|tauto]. intros Hrow. split; [done|].
    exists [], [], (name row). split; [done|constructor].
  - rewrite re_compile_plain by done. eexists. split; [done|].
    split; [apply sublist_filter|]. split; [|done].
    intros row. rewrite list_elem_of_filter, re_search_literal. tauto.
Qed.
End NameSearch.

(** ** The scenario of the specification *)

Section Scenario.
#[local] Existing Instance half_floats.

(** C2 fails on the code.  The search term is compiled as a regular
    expression: the term of one dot selects every record of the scenario,
    although no name contains a dot, and the term of one star makes the
    search raise. *)
Theorem name_search_compiles_the_term :
  filter_by_name ascii_ignorecase [fern; goldfish] (py ".") = Some (Ok [fern; goldfish])
  /\ ~ contains_ignorecase ascii_ignorecase (py ".") (name fern)
  /\ ~ contains_ignorecase ascii_ignorecase (py ".") (name goldfish)
  /\ filter_by_name ascii_ignorecase [fern; goldfish] (py "*") = Some (Raise ReError).
Proof.
  split; [by vm_compute|]. split; [|split; [|by vm_compute]].
  - rewrite <- (re_search_literal ascii_ignorecase). by vm_compute.
  - rewrite <- (re_search_literal ascii_ignorecase). by vm_compute.
Qed.

(** C3 as stated fails on the code: a backing file that holds a list of
    numbers, an empty object, or the words not json between double quotes
    (a JSON string) is loaded without an error, and none of these values
    is a list of items. *)
Lemma load_accepts_any_json :
  load (Some (py "[1, 2]")) = Ok (PList [PInt 1; PInt 2])
  /\ load (Some (py "{}")) = Ok (PDict [])
  /\ load (Some (34 :: py "not json" ++ [34])) = Ok (PStr (py "not json"))
  /\ forall inventory : list item,
       store_value inventory <> PList [PInt 1; PInt 2]
       /\ store_value inventory <> PDict []
       /\ store_value inventory <> PStr (py "not json").
Proof.
  split; [by vm_compute|]. split; [by vm_compute|]. split; [by vm_compute|].
  intros [|it inventory]; repeat split; done.
Qed.

Lemma scenario_valid : Forall valid_item (inventory scenario).
Proof. repeat constructor; by vm_compute. Qed.

Lemma delete_removes_exactly_the_matches_witness :
  [goldfish] `sublist_of` inventory scenario
  /\ Forall (fun item => id item <> 1%Z) [goldfish]
  /\ [goldfish] `sublist_of` inventory (delete_item 1 NoFault scenario).1.
Proof.
  assert ([goldfish] `sublist_of` inventory scenario) as Hsub
    by (apply sublist_cons; reflexivity).
  assert (Forall (fun item => id item <> 1%Z) [goldfish]) as Hids
    by (repeat constructor; cbn; lia).
  split; [exact Hsub|]. split; [exact Hids|].
  exact (proj2 (proj2 (delete_removes_exactly_the_matches 1 NoFault scenario))
           [goldfish] Hsub Hids).
Defined.

Lemma delete_absent_id_unchanged_witness :
  (forall item, item ∈ inventory scenario -> id item <> 7%Z)
  /\ inventory (delete_item 7 NoFault scenario).1 = inventory scenario.
Proof.
  assert (forall item, item ∈ inventory scenario -> id item <> 7%Z) as Habsent.
  { intros item Hin. cbn in Hin.
    apply elem_of_cons in Hin as [->|Hin]; [cbn; lia|].
    apply list_elem_of_singleton in Hin as ->. cbn. lia. }
  split; [exact Habsent|].
  exact (delete_absent_id_unchanged 7 NoFault scenario Habsent).
Defined.

Lemma update_price_changes_only_price_witness :
  inventory scenario !! 0%nat = Some fern
  /\ exists item',
       inventory (update_price 1 (half 12) NoFault scenario).1 !! 0%nat = Some item'
       /\ price item' = half 12 /\ name item' = name fern.
Proof.
  split; [reflexivity|].
  destruct (proj2 (update_price_changes_only_price 1 (half 12) NoFault scenario)
              0%nat fern eq_refl)
    as (item' & Hitem' & _ & Hname & _ & _ & _ & _ & Hprice & _).
  exists item'. split; [exact Hitem'|]. split; [exact Hprice|exact Hname].
Defined.

Lemma filter_by_category_selects_witness :
  [fern] `sublist_of` [fern; goldfish]
  /\ Forall (fun row => category row ∈ [py "Plants"]) [fern]
  /\ [fern] `sublist_of` filter_by_category [fern; goldfish] [py "Plants"].
Proof.
  assert ([fern] `sublist_of` [fern; goldfish]) as Hsub
    by (apply sublist_skip, sublist_cons; reflexivity).
  assert (Forall (fun row => category row ∈ [py "Plants"]) [fern]) as Hcat
    by (repeat constructor).
  split; [exact Hsub|]. split; [exact Hcat|].
  exact (proj2 (proj2 (proj2 (filter_by_category_selects [fern; goldfish] (py "Plants") [])))
           [fern] Hsub Hcat).
Defined.

Lemma mutation_survives_failed_write_witness :
  OpenFails <> NoFault
  /\ inventory (delete_item 1 OpenFails scenario).1 = delete (inventory scenario) 1
  /\ (delete_item 1 OpenFails scenario).2 = Raise OSError.
Proof.
  assert (OpenFails <> NoFault) as Hio by discriminate.
  split; [exact Hio|].
  destruct (proj1 (proj2 (mutation_survives_failed_write OpenFails scenario Hio)) 1%Z)
    as [Hraise Hmemory].
  split; [exact Hmemory|exact Hraise].
Defined.

Lemma save_then_load_round_trip_witness :
  Forall valid_item (inventory scenario)
  /\ load (file (save_inventory NoFault scenario).1) = Ok (store_value (inventory scenario)).
Proof.
  split; [exact scenario_valid|].
  exact (proj1 (@save_then_load_round_trip half_floats half_floats_laws
                  scenario scenario_valid)).
Defined.

Lemma load_returns_what_json_parses_witness :
  skip_ws [32; 10] = [] /\ load (Some [32; 10]) = Raise JSONDecodeError.
Proof.
  split; [reflexivity|].
  exact (proj1 (proj2 (proj2 (proj2 (proj2 (@load_returns_what_json_parses half_floats)))))
           [32; 10] eq_refl).
Defined.

End Scenario.

(** * The runs of a session, the views and the text of the file *)

(** ** The ids of a run, and how the operations compose *)

Section StoreRuns.
Context {FM : PyFloat}.
Implicit Types (w : world) (io : write_fault) (x y : Z) (p q : pyfloat finite)
  (inv : list item).

Lemma step_inventory w a io :
  inventory (step w (a, io)) =
    match a with
    | AddItem n c qty p i t => inventory w ++ [new_item (inventory w) n c qty p i t]
    | DeleteItem x => delete (inventory w) x
    | UpdatePrice x p => update_prices (inventory w) x p
    end.
Proof.
  destruct a; cbn [step fst].
  - unfold add_item. by rewrite save_inventory_memory.
  - unfold delete_item. by rewrite save_inventory_memory.
  - apply update_price_memory.
Qed.

Lemma run_snoc w acts a : run w (acts ++ [a]) = step (run w acts) a.
Proof. unfold run. by rewrite fold_left_app. Qed.

Lemma update_prices_ids inv x p : map id (update_prices inv x p) = map id inv.
Proof.
  induction inv as [|item inv IH]; [done|]. cbn. rewrite IH.
  by destruct (decide (id item = x)).
Qed.

Lemma update_prices_length inv x p : length (update_prices inv x p) = length inv.
Proof. induction inv; cbn; congruence. Qed.

(** X1.  While no item is deleted, the ids of a session that started
    without a file are 1, 2, ..., as many as items were added, in this
    order, whether the writes went through or not; in particular no id
    occurs twice. *)
Theorem ids_count_up_without_delete (acts : list (action * write_fault)) :
  Forall (fun a => is_delete a = false) acts ->
  id_options (inventory (run empty_store acts))
  = seqZ 1 (Z.of_nat (length (filter (fun a => is_add a = true) acts)))
  /\ NoDup (id_options (inventory (run empty_store acts))).
Proof.
  intros Hno.
  assert (id_options (inventory (run empty_store acts))
          = seqZ 1 (Z.of_nat (length (filter (fun a => is_add a = true) acts)))) as Hids.
  { induction acts as [|[a io] acts IH] using rev_ind; [done|].
    apply Forall_app in Hno as [Hno Ha]. rewrite Forall_singleton in Ha.
    specialize (IH Hno). rewrite run_snoc, filter_app, length_app.
    unfold id_options in *. rewrite step_inventory.
    destruct a as [n c qty p i t|x|x p]; [|cbn in Ha; discriminate|].
    - rewrite map_app, IH. cbn [map new_item id].
      rewrite <- (length_map id), IH, length_seqZ.
      rewrite filter_cons_True by done. cbn [filter list_filter length].
      rewrite Nat2Z.inj_add. rewrite seqZ_app by lia. f_equal.
      rewrite Nat2Z.id. change (Z.of_nat 1) with 1%Z. rewrite seqZ_cons by done.
      cbn. f_equal. lia.
    - rewrite update_prices_ids, IH. rewrite filter_cons_False by done.
      cbn. by rewrite Nat.add_0_r. }
  split; [done|]. rewrite Hids. apply NoDup_seqZ.
Qed.

(** X2.  Whatever a session that started without a file did, it has at
    most as many items as were added, and every id lies between 1 and
    that number. *)
Theorem ids_between_one_and_adds (acts : list (action * write_fault)) :
  let adds := length (filter (fun a => is_add a = true) acts) in
  let inventory' := inventory (run empty_store acts) in
  (length inventory' <= adds)%nat
  /\ Forall (fun item => (1 <= id item <= Z.of_nat adds)%Z) inventory'.
Proof.
  cbn zeta. induction acts as [|[a io] acts [IHlen IHids]] using rev_ind.
  { split; [done|constructor]. }
  rewrite run_snoc, filter_app, length_app, step_inventory.
  set (adds := length (filter (fun a => is_add a = true) acts)) in *.
  set (inv := inventory (run empty_store acts)) in *.
  destruct a as [n c qty p i t|x|x p].
  - rewrite filter_cons_True by done. cbn [filter list_filter length].
    rewrite length_app. cbn [length]. split; [lia|].
    apply Forall_app. split.
    + eapply Forall_impl; [exact IHids|]. cbn. intros; lia.
    + apply Forall_singleton. cbn. lia.
  - rewrite filter_cons_False by done. cbn [filter list_filter length].
    rewrite Nat.add_0_r. split.
    + pose proof (length_filter (fun item => id item <> x) inv). unfold delete. lia.
    + unfold delete. apply Forall_forall. intros item [_ Hin]%list_elem_of_filter.
      rewrite Forall_forall in IHids. auto.
  - rewrite filter_cons_False by done. cbn [filter list_filter length].
    rewrite Nat.add_0_r, update_prices_length. split; [done|].
    apply Forall_forall. intros item Hin.
    apply list_elem_of_lookup in Hin as [k Hk].
    rewrite update_prices_lookup in Hk.
    destruct (inv !! k) as [old|] eqn:Hold; [|done]. cbn in Hk.
    apply list_elem_of_lookup_2 in Hold.
    rewrite Forall_forall in IHids. specialize (IHids old Hold).
    destruct (decide (id old = x)); simplify_eq; cbn; lia.
Qed.

(** X3.  Deleting an id a second time changes nothing, and two deletions
    give the same inventory in either order. *)
Theorem delete_twice_and_in_any_order inv x y :
  delete (delete inv x) x = delete inv x
  /\ delete (delete inv x) y = delete (delete inv y) x.
Proof.
  unfold delete. split.
  - apply filter_Forall_id, Forall_filter_keeps.
  - rewrite !list_filter_filter. apply list_filter_iff. tauto.
Qed.

Lemma length_delete inv x :
  (length (delete inv x) + length (filter (fun item => id item = x) inv))%nat
  = length inv.
Proof.
  unfold delete. induction inv as [|item inv IH]; [done|].
  rewrite !filter_cons. destruct (decide (id item <> x)), (decide (id item = x));
    cbn [length]; try lia; congruence.
Qed.

(** X4.  Deleting an id that the select box offers makes the inventory
    shorter, by the number of items that have this id. *)
Theorem delete_offered_id_shrinks inv x :
  x ∈ id_options inv ->
  (length (delete inv x) < length inv)%nat
  /\ (length (delete inv x) + length (filter (fun item => id item = x) inv))%nat
     = length inv.
Proof.
  intros Hx. split; [|apply length_delete].
  apply list_elem_of_fmap in Hx as (item & -> & Hin).
  unfold delete. eapply length_filter_lt; [exact Hin|]. intros Hne. by apply Hne.
Qed.

Lemma update_prices_filter inv x p (P : item -> Prop) `{!forall it, Decision (P it)} :
  (forall it, P (set_price it p) <-> P it) ->
  filter P (update_prices inv x p) = update_prices (filter P inv) x p.
Proof.
  intros HP. induction inv as [|item inv IH]; [done|]. cbn [update_prices].
  destruct (decide (id item = x)) as [Hx|Hx].
  - destruct (decide (P item)) as [Hit|Hit].
    + rewrite !filter_cons_True by (done || by apply HP). cbn [update_prices].
      by rewrite decide_True, IH.
    + rewrite !filter_cons_False by (done || by rewrite HP). done.
  - destruct (decide (P item)) as [Hit|Hit].
    + rewrite !filter_cons_True by done. cbn [update_prices].
      by rewrite decide_False, IH.
    + by rewrite !filter_cons_False.
Qed.

(** X5.  After a price update for [x], the item that the update tab shows
    for an id [y] is the one it showed before, with the new price when
    [y] is [x] and unchanged otherwise; an id without an item stays
    without one. *)
Theorem current_item_after_update inv x y p :
  current_item (update_prices inv x p) y
  = (fun item => if decide (y = x) then set_price item p else item)
      <$> current_item inv y.
Proof.
  unfold current_item.
  rewrite update_prices_filter by done.
  destruct (filter (fun item => id item = y) inv) as [|item rest] eqn:Hf; [done|].
  assert (id item = y) as Hid.
  { assert (item ∈ filter (fun item => id item = y) inv) as Hin by (rewrite Hf; left).
    by apply list_elem_of_filter in Hin as [? _]. }
  cbn. destruct (decide (id item = x)), (decide (y = x)); try done; congruence.
Qed.

(** X6.  Of two price updates for the same id the second one wins, and
    updates for different ids give the same inventory in either order. *)
Theorem update_last_wins_and_commutes inv x y p q :
  update_prices (update_prices inv x p) x q = update_prices inv x q
  /\ (x <> y ->
      update_prices (update_prices inv x p) y q
      = update_prices (update_prices inv y q) x p).
Proof.
  split.
  - induction inv as [|item inv IH]; [done|]. cbn. rewrite IH. f_equal.
    destruct (decide (id item = x)) as [Hx|Hx]; cbn.
    + by rewrite decide_True.
    + by rewrite decide_False.
  - intros Hxy. induction inv as [|item inv IH]; [done|]. cbn. rewrite IH. f_equal.
    destruct (decide (id item = x)), (decide (id item = y)); cbn;
      repeat case_decide; done || congruence.
Qed.

(** X7.  A price update and a deletion give the same inventory in either
    order; when both are for the same id the update has no effect on the
    result, before or after the deletion. *)
Theorem update_and_delete inv x y p :
  delete (update_prices inv x p) y = update_prices (delete inv y) x p
  /\ delete (update_prices inv x p) x = delete inv x
  /\ update_prices (delete inv x) x p = delete inv x.
Proof.
  assert (forall z, delete (update_prices inv x p) z = update_prices (delete inv z) x p)
    as Hcomm by (intros z; unfold delete; by apply update_prices_filter).
  assert (update_prices (delete inv x) x p = delete inv x) as Hnone
    by (apply update_prices_no_match, Forall_filter_keeps).
  split; [apply Hcomm|]. split; [|done]. by rewrite Hcomm.
Qed.

(** X8.  Deleting the id of the item that was just added removes the new
    item together with every older item of the same id; it gives back
    the inventory from before the addition when no older item has that
    id. *)
Theorem add_then_delete_new_id inv (n c : str) (qty : Z) p (i t : str) :
  let item := new_item inv n c qty p i t in
  delete (inv ++ [item]) (id item) = delete inv (id item)
  /\ (id item ∉ id_options inv -> delete (inv ++ [item]) (id item) = inv).
Proof.
  cbn zeta. unfold delete. rewrite filter_app, filter_cons_False by (intros H; by apply H).
  rewrite filter_nil, app_nil_r. split; [done|].
  intros Hfresh. apply filter_Forall_id, Forall_forall. intros item Hin Hid.
  apply Hfresh. unfold id_options. rewrite <- Hid. by apply list_elem_of_fmap_2.
Qed.

Lemma set_price_same (it : item) : set_price it (price it) = it.
Proof. by destruct it. Qed.

(** X9.  When no id occurs twice, an update that keeps the price the
    update tab shows for the selected item leaves the inventory as it
    was. *)
Theorem update_to_current_price inv x (shown : item) :
  current_item inv x = Some shown ->
  NoDup (id_options inv) ->
  update_prices inv x (price shown) = inv.
Proof.
  unfold current_item, id_options. induction inv as [|it inv IH]; [done|].
  rewrite filter_cons. cbn [map update_prices]. intros Hshown Hids.
  apply NoDup_cons in Hids as [Hfresh Hids].
  destruct (decide (id it = x)) as [Hx|Hx].
  - cbn in Hshown. injection Hshown as <-. rewrite set_price_same. f_equal.
    apply update_prices_no_match, Forall_forall. intros other Hin Hid.
    apply Hfresh. rewrite Hx, <- Hid. by apply list_elem_of_fmap_2.
  - f_equal. by apply IH.
Qed.
(** X19.  A run of additions appends one item for each addition, in the
    order of the additions and with the fields as entered, whether the
    writes went through or not; the ids go on from the length the
    inventory had. *)
Theorem additions_are_listed_in_order w (rows : list (item * write_fault)) :
  inventory (run w (map (fun r => (add_of r.1, r.2)) rows))
  = inventory w
    ++ imap (fun k r => with_id r.1 (Z.of_nat (length (inventory w) + k) + 1)) rows.
Proof.
  induction rows as [|[row io] rows IH] using rev_ind.
  { cbn. by rewrite app_nil_r. }
  rewrite map_app. cbn [map fst snd]. rewrite run_snoc. unfold add_of at 2.
  rewrite step_inventory.
  rewrite IH, imap_app, app_assoc. cbn [imap]. repeat f_equal.
  unfold new_item, with_id. cbn [fst]. f_equal.
  rewrite length_app, length_imap. lia.
Qed.

(** X20.  The item that the update tab shows for an id is the first item
    with this id, the one that decides whether "Update Price" is shown;
    there is one exactly for the ids that the select box offers. *)
Theorem current_item_is_first_match inv x :
  current_item inv x = snd <$> list_find (fun item => id item = x) inv
  /\ (is_Some (current_item inv x) <-> x ∈ id_options inv).
Proof.
  unfold current_item, id_options. induction inv as [|it inv [IHfind IHsome]].
  { split; [done|]. split; [by intros [? ?]|by intros ?%elem_of_nil]. }
  rewrite filter_cons. cbn [list_find map].
  destruct (decide (id it = x)) as [Hx|Hx].
  - split; [done|]. split; [|by eexists]. intros _. rewrite Hx. left.
  - split.
    + rewrite IHfind. destruct (list_find _ inv) as [[k found]|]; done.
    + rewrite IHsome, elem_of_cons. split; [tauto|].
      intros [Heq|Hin]; [congruence|done].
Qed.
End StoreRuns.

(** ** The labels of the update select box *)

Lemma int_repr_no_space z : Forall (fun c => c <> 32) (int_repr z).
Proof.
  assert (forall u, Forall (fun c => c <> 32) (digits u)) as Hdigits.
  { intros u. eapply Forall_impl; [apply digits_all_digits|]. cbn.
    intros c Hc%is_digit_bounds. lia. }
  unfold int_repr. destruct (Z.to_int z); [apply Hdigits|].
  constructor; [done|apply Hdigits].
Qed.

Lemma int_repr_inj x y : int_repr x = int_repr y -> x = y.
Proof. intros Heq. by rewrite <- (int_of_str_repr x), Heq, int_of_str_repr. Qed.

Lemma split_at_space (a b r r' : str) :
  Forall (fun c => c <> 32) a -> Forall (fun c => c <> 32) b ->
  a ++ 32 :: r = b ++ 32 :: r' -> a = b.
Proof.
  intros Ha. revert b. induction Ha as [|c a Hc _ IH]; intros b Hb Heq.
  - destruct Hb as [|d b Hd _]; [done|]. cbn in Heq. injection Heq as Hhead _.
    by destruct Hd.
  - destruct Hb as [|d b Hd Hb]; cbn in Heq.
    + injection Heq as Hhead _. by destruct Hc.
    + injection Heq as -> Heq. f_equal. by apply IH.
Qed.

Section Labels.
Context {FM : PyFloat}.

(** X21.  The labels of the id select box of the update tab tell the ids
    apart: two options have the same label only when they are the same
    id, so the items of a repeated id cannot be told apart in the box. *)
Theorem labels_tell_ids_apart (inv : list item) (x y : Z) :
  format_func inv x = format_func inv y <-> x = y.
Proof.
  split; [|by intros ->]. unfold format_func. intros Heq.
  apply app_inv_head in Heq. apply int_repr_inj.
  eapply split_at_space; [apply int_repr_no_space..|exact Heq].
Qed.
End Labels.

(** ** The inventory view *)

Lemma elem_of_unique (l : list str) (x : str) : x ∈ unique l <-> x ∈ l.
Proof.
  induction l as [|y l IH]; [done|]. cbn.
  rewrite !elem_of_cons, list_elem_of_filter, IH.
  destruct (decide (x = y)); tauto.
Qed.

Lemma NoDup_unique (l : list str) : NoDup (unique l).
Proof.
  induction l as [|y l IH]; cbn; [constructor|].
  constructor; [|by apply NoDup_filter].
  intros [Hne _]%list_elem_of_filter. by apply Hne.
Qed.

Section View.
Context {FM : PyFloat}.
Implicit Types (df : list item).

(** X10.  The options of the category filter are the categories of the
    inventory, each once.  Selecting all of them shows the whole
    inventory, and a selection among them that is not empty never shows
    an empty table. *)
Theorem category_options_cover df :
  NoDup (category_options df)
  /\ (forall c, c ∈ category_options df <-> exists row, row ∈ df /\ category row = c)
  /\ filter_by_category df (category_options df) = df
  /\ (forall selection : list str,
        selection <> [] -> selection ⊆ category_options df ->
        filter_by_category df selection <> []).
Proof.
  unfold category_options. split; [apply NoDup_unique|].
  assert (forall c, c ∈ unique (map category df) <-> exists row, row ∈ df /\ category row = c)
    as Hin.
  { intros c. rewrite elem_of_unique, list_elem_of_fmap. split.
    - intros (row & -> & Hrow). eauto.
    - intros (row & Hrow & <-). eauto. }
  split; [exact Hin|]. split.
  - unfold filter_by_category.
    destruct (unique (map category df)) as [|c options] eqn:Hu; [done|].
    apply filter_Forall_id, Forall_forall. intros row Hrow.
    apply Hin. eauto.
  - intros [|c selection] Hne Hsub; [done|]. unfold filter_by_category.
    assert (c ∈ unique (map category df)) as (row & Hrow & Hc)%Hin
      by (apply Hsub; left).
    intros Hnil. eapply (filter_nil_not_elem_of _ _ row); [exact Hnil| |exact Hrow].
    cbn. rewrite Hc. left.
Qed.

(** X11.  For a search term without a special character of regular
    expressions, the table shows the rows, in the order of the inventory,
    whose category is selected (or any, when nothing is selected) and
    whose name contains the term up to case; searching first and
    selecting the categories afterwards gives the same table. *)
Theorem filtered_view_intersects (ignorecase : char -> char -> bool) df
    (category_filter : list str) (search_term : str) :
  Forall (fun c => is_special c = false) search_term ->
  exists rows,
    filtered_view ignorecase df category_filter search_term = Some (Ok rows)
    /\ rows `sublist_of` df
    /\ (forall row,
          row ∈ rows <->
          row ∈ df
          /\ (category_filter = [] \/ category row ∈ category_filter)
          /\ contains_ignorecase ignorecase search_term (name row))
    /\ (exists named,
          filter_by_name ignorecase df search_term = Some (Ok named)
          /\ filter_by_category named category_filter = rows).
Proof.
  intros Hplain. unfold filtered_view.
  assert (forall row, row ∈ filter_by_category df category_filter <->
            row ∈ df /\ (category_filter = [] \/ category row ∈ category_filter)) as Hcat.
  { intros row. unfold filter_by_category. destruct category_filter as [|c cs].
    - split; [auto|tauto].
    - rewrite list_elem_of_filter. split; [tauto|]. intros [? [?|?]]; done. }
  assert (filter_by_category df category_filter `sublist_of` df) as Hsub.
  { unfold filter_by_category. destruct category_filter; [done|apply sublist_filter]. }
  unfold filter_by_name. destruct search_term as [|c term].
  - eexists. split; [done|]. split; [done|]. split.
    + intros row. rewrite Hcat. split; [|tauto]. intros [? ?]. split; [done|].
      split; [done|]. exists [], [], (name row). split; [done|constructor].
    + eexists. split; done.
  - rewrite re_compile_plain by done. eexists. split; [done|]. split.
    { etrans; [apply sublist_filter|done]. }
    split.
    + intros row. rewrite list_elem_of_filter, Hcat, re_search_literal. tauto.
    + eexists. split; [done|]. unfold filter_by_category.
      destruct category_filter as [|c' cs]; [done|].
      rewrite !list_filter_filter. apply list_filter_iff. tauto.
Qed.
End View.

(** ** The analytics tab *)

Lemma value_counts_lookup (column : list str) (c : str) :
  value_counts column !! c
  = match length (filter (fun x => x = c) column) with
    | O => None
    | S n => Some (S n)
    end.
Proof.
  induction column as [|x column IH]; [done|]. cbn [value_counts foldr].
  fold (value_counts column). rewrite filter_cons.
  destruct (decide (x = c)) as [->|Hne].
  - rewrite lookup_insert_eq, IH. cbn [length].
    by destruct (length (filter (fun x => x = c) column)).
  - by rewrite lookup_insert_ne.
Qed.

Lemma counts_sum_insert (counts : gmap str nat) (c : str) (n : nat) :
  (counts_sum (<[c := n]> counts) + default 0 (counts !! c))%nat
  = (n + counts_sum counts)%nat.
Proof.
  unfold counts_sum.
  assert (forall (m : gmap str nat) k v, m !! k = None ->
            map_fold (fun _ n total => (n + total)%nat) 0%nat (<[k := v]> m)
            = (v + map_fold (fun _ n total => (n + total)%nat) 0%nat m)%nat) as Hfresh.
  { intros m k v Hk. apply (map_fold_insert_L (fun _ n total => (n + total)%nat)); [|done].
    intros. lia. }
  destruct (counts !! c) as [old|] eqn:Hc; cbn [default].
  - rewrite <- (insert_delete_eq counts c n).
    rewrite <- (insert_delete_id counts c old Hc) at 2.
    rewrite !Hfresh by apply lookup_delete_eq. unfold Datatypes.id. lia.
  - rewrite Hfresh by done. unfold Datatypes.id. lia.
Qed.

Lemma counts_sum_value_counts (column : list str) :
  counts_sum (value_counts column) = length column.
Proof.
  induction column as [|x column IH]; [done|]. cbn [value_counts foldr length].
  fold (value_counts column).
  pose proof (counts_sum_insert (value_counts column) x
                (S (default 0%nat (value_counts column !! x)))) as Hsum.
  lia.
Qed.

Section Analytics.
Context {FM : PyFloat}.
Implicit Types df : list item.

Lemma length_filter_category df (c : str) :
  length (filter_by_category df [c])
  = length (filter (fun x => x = c) (map category df)).
Proof.
  cbn [filter_by_category]. induction df as [|row df IH]; [done|].
  cbn [map]. rewrite !filter_cons.
  destruct (decide (category row = c)) as [Heq|Hne].
  - rewrite decide_True by (rewrite Heq; apply list_elem_of_singleton; done).
    cbn [length]. by rewrite IH.
  - rewrite decide_False; [done|]. by intros Hin%list_elem_of_singleton.
Qed.

(** X12.  The chart "Items by Category" gives for a category the number
    of rows the category filter would select for it alone, and nothing
    for a category without rows; it has an entry exactly for the options
    of the category filter, and its counts add up to the number of items
    ("Unique Products"). *)
Theorem category_counts_count_rows df (c : str) :
  category_counts df !! c
  = (let n := length (filter_by_category df [c]) in
     if decide (n = 0%nat) then None else Some n)
  /\ (is_Some (category_counts df !! c) <-> c ∈ category_options df)
  /\ counts_sum (category_counts df) = length df.
Proof.
  assert (category_counts df !! c
          = (let n := length (filter_by_category df [c]) in
             if decide (n = 0%nat) then None else Some n)) as Hlookup.
  { unfold category_counts. rewrite value_counts_lookup, length_filter_category.
    by destruct (length (filter (fun x => x = c) (map category df))). }
  split; [done|]. split.
  - rewrite Hlookup. unfold category_options. rewrite elem_of_unique.
    rewrite length_filter_category. cbn zeta.
    destruct (decide (length (filter (fun x => x = c) (map category df)) = 0%nat))
      as [Hzero|Hpos].
    + split; [by intros [? ?]|]. intros Hin.
      apply length_zero_iff_nil in Hzero.
      assert (c ∈ filter (fun x => x = c) (map category df)) as Hc
        by (by apply list_elem_of_filter).
      rewrite Hzero in Hc. by apply elem_of_nil in Hc.
    + split; [|by eexists]. intros _.
      destruct (filter (fun x => x = c) (map category df)) as [|x l] eqn:Hf; [done|].
      assert (x ∈ filter (fun x => x = c) (map category df)) as Hx
        by (rewrite Hf; apply elem_of_cons; by left).
      apply list_elem_of_filter in Hx as [-> Hx]. done.
  - unfold category_counts. by rewrite counts_sum_value_counts, length_map.
Qed.

Lemma quantities_bounds df :
  Forall (fun row => (1 <= quantity row)%Z) df ->
  (Z.of_nat (length df) <= foldr Z.add 0%Z (map quantity df))%Z
  /\ Forall (fun q => (1 <= q <= foldr Z.add 0%Z (map quantity df))%Z) (map quantity df).
Proof.
  induction 1 as [|row df Hrow _ [IHlen IHeach]]; [by split; [|constructor]|].
  cbn [map foldr length]. split; [lia|]. constructor; [lia|].
  eapply Forall_impl; [exact IHeach|]. cbn. intros q ?. lia.
Qed.

(** X13.  For quantities of at least 1, as the form of the sidebar
    enforces, whose sum is below 2^63, "Total Items" is the exact sum of
    the quantities, and it is at least the number of items. *)
Theorem total_items_is_the_sum df :
  Forall (fun row => (1 <= quantity row)%Z) df ->
  (foldr Z.add 0%Z (map quantity df) < 2 ^ 63)%Z ->
  total_items df = Some (foldr Z.add 0%Z (map quantity df))
  /\ (Z.of_nat (length df) <= foldr Z.add 0%Z (map quantity df))%Z.
Proof.
  intros Hpos Hsum. destruct (quantities_bounds df Hpos) as [Hlen Heach].
  split; [|done]. unfold total_items.
  assert (forallb fits_int64 (map quantity df) = true) as ->.
  { apply Is_true_true, forallb_True. eapply Forall_impl; [exact Heach|]. cbn.
    intros q Hq. unfold fits_int64. apply Is_true_true, andb_true_iff. split.
    - apply Z.leb_le. lia.
    - apply Z.ltb_lt. lia. }
  f_equal. unfold wrap64.
  rewrite Z.mod_small; lia.
Qed.

End Analytics.

(** ** The text of the backing file *)

Lemma digits_printable u : Forall printable (digits u).
Proof.
  eapply Forall_impl; [apply digits_all_digits|].
  intros c Hc%is_digit_bounds. unfold printable. lia.
Qed.

Lemma span_digits_printable s : Forall printable (span_digits s).1.
Proof.
  induction s as [|c s IH]; cbn; [constructor|].
  destruct (is_digit c) eqn:Hc; [|constructor].
  destruct (span_digits s) as [ds rest]. cbn in *. constructor; [|done].
  apply is_digit_bounds in Hc. unfold printable. lia.
Qed.

Lemma lex_integer_printable s i r : lex_integer s = Some (i, r) -> Forall printable i.
Proof.
  assert (forall t i' r',
            match t with
            | c :: s2 =>
                if c =? 48 then Some ([c], s2)
                else if is_digit c then
                  let '(ds, rest) := span_digits s2 in Some (c :: ds, rest)
                else None
            | [] => None
            end = Some (i', r') -> Forall printable i') as Hunsigned.
  { intros [|c s2] i' r'; [done|].
    destruct (N.eqb_spec c 48) as [->|_].
    - intros [= <- <-]. repeat constructor; unfold printable; lia.
    - destruct (is_digit c) eqn:Hc; [|done].
      pose proof (span_digits_printable s2) as Hds.
      destruct (span_digits s2) as [ds rest]. intros [= <- <-].
      constructor; [|done]. apply is_digit_bounds in Hc. unfold printable. lia. }
  unfold lex_integer. destruct s as [|c s]; [done|].
  destruct (N.eqb_spec c 45) as [->|_].
  - destruct s as [|c' s2]; [done|].
    destruct (c' =? 48) eqn:H0.
    + intros [= <- <-]. apply N.eqb_eq in H0 as ->.
      repeat constructor; unfold printable; lia.
    + destruct (is_digit c') eqn:Hc; [|done].
      pose proof (span_digits_printable s2) as Hds.
      destruct (span_digits s2) as [ds rest]. intros [= <- <-].
      constructor; [unfold printable; lia|].
      constructor; [|done]. apply is_digit_bounds in Hc. unfold printable. lia.
  - intros Hlex. by apply (Hunsigned (c :: s) i r).
Qed.

Lemma lex_frac_printable s : Forall printable (lex_frac s).1.
Proof.
  destruct s as [|c s]; [constructor|]. cbn.
  destruct (N.eqb_spec c 46) as [->|_]; [|constructor].
  pose proof (span_digits_printable s) as Hds.
  destruct (span_digits s) as [[|d ds] rest]; cbn in *; [constructor|].
  constructor; [unfold printable; lia|done].
Qed.

Lemma lex_exp_printable s : Forall printable (lex_exp s).1.
Proof.
  destruct s as [|c s]; [constructor|]. cbn.
  destruct ((c =? 101) || (c =? 69)) eqn:Hc; [|constructor].
  assert (printable c) as Hpc.
  { apply orb_true_iff in Hc as [->%N.eqb_eq| ->%N.eqb_eq]; unfold printable; lia. }
  destruct s as [|d s].
  { cbn. constructor. }
  destruct ((d =? 45) || (d =? 43)) eqn:Hd.
  - assert (printable d) as Hpd.
    { apply orb_true_iff in Hd as [->%N.eqb_eq| ->%N.eqb_eq]; unfold printable; lia. }
    pose proof (span_digits_printable s) as Hds.
    destruct (span_digits s) as [[|? ?] rest]; cbn in *; [constructor|].
    constructor; [done|]. by constructor.
  - pose proof (span_digits_printable (d :: s)) as Hds.
    destruct (span_digits (d :: s)) as [[|? ?] rest]; cbn in *; [constructor|].
    by constructor.
Qed.

Lemma lex_number_printable s i f e r :
  lex_number s = Some (i, f, e, r) -> Forall printable (i ++ f ++ e).
Proof.
  unfold lex_number. destruct (lex_integer s) as [[i' s1]|] eqn:Hint; [|done].
  apply lex_integer_printable in Hint.
  pose proof (lex_frac_printable s1). destruct (lex_frac s1) as [f' s2].
  pose proof (lex_exp_printable s2). destruct (lex_exp s2) as [e' s3].
  intros [= <- <- <- <-]. by rewrite !Forall_app.
Qed.

Lemma int_repr_printable z : Forall printable (int_repr z).
Proof.
  unfold int_repr. destruct (Z.to_int z); [apply digits_printable|].
  constructor; [unfold printable; lia|apply digits_printable].
Qed.

Lemma hex_digit_printable d : d < 16 -> printable (hex_digit d).
Proof. unfold hex_digit, printable. destruct (N.ltb_spec d 10); lia. Qed.

Lemma hex4_printable n : Forall printable (hex4 n).
Proof.
  unfold hex4. repeat constructor; apply hex_digit_printable, N.mod_lt; lia.
Qed.

Lemma escape_char_printable c : Forall printable (escape_char c).
Proof.
  unfold escape_char.
  repeat match goal with
  | |- Forall _ (if ?b then _ else _) => destruct b eqn:?
  end;
  rewrite ?Forall_app; repeat split;
  repeat (constructor; try apply hex4_printable); unfold printable; try lia.
  all: match goal with H : _ && _ = true |- _ =>
         apply andb_true_iff in H as [?%N.leb_le ?%N.leb_le]; lia end.
Qed.

Lemma encode_string_printable s : Forall printable (encode_string s).
Proof.
  unfold encode_string. constructor; [unfold printable; lia|].
  apply Forall_app. split; [|repeat constructor; unfold printable; lia].
  induction s as [|c s IH]; cbn; [constructor|].
  apply Forall_app. split; [apply escape_char_printable|done].
Qed.

Lemma join_printable (l : list str) :
  Forall (Forall printable) l -> Forall printable (join ITEM_SEPARATOR l).
Proof.
  induction 1 as [|x l Hx Hl IH]; [constructor|].
  destruct l as [|y l]; [done|].
  change (join ITEM_SEPARATOR (x :: y :: l))
    with (x ++ 44 :: 32 :: join ITEM_SEPARATOR (y :: l)).
  apply Forall_app. split; [done|].
  constructor; [unfold printable; lia|]. constructor; [unfold printable; lia|done].
Qed.

Section Text.
Context {FM : PyFloat} {FL : PyFloatLaws FM}.

Lemma float_repr_printable (x : finite) : Forall printable (float_repr x).
Proof.
  destruct (float_repr_lex x [] I) as (i & f & e & Hlex & -> & _).
  by apply lex_number_printable in Hlex.
Qed.

Lemma dumps_printable v : Forall printable (dumps v).
Proof.
  induction v as [|b|z|x|s|l IH|d IH] using pyval_induction.
  - repeat constructor; unfold printable; lia.
  - destruct b; repeat constructor; unfold printable; lia.
  - apply int_repr_printable.
  - destruct x; [apply float_repr_printable|..];
      repeat constructor; unfold printable; lia.
  - apply encode_string_printable.
  - cbn [dumps]. constructor; [unfold printable; lia|].
    apply Forall_app. split; [|repeat constructor; unfold printable; lia].
    apply join_printable. by apply Forall_fmap.
  - cbn [dumps]. constructor; [unfold printable; lia|].
    apply Forall_app. split; [|repeat constructor; unfold printable; lia].
    apply join_printable, Forall_fmap. eapply Forall_impl; [exact IH|].
    intros [k v] Hv. unfold compose. cbn [fst snd] in *. rewrite !Forall_app.
    split; [apply encode_string_printable|].
    split; [repeat constructor; unfold printable; lia|done].
Qed.

(** X14.  Whenever [open] succeeded, the backing file holds printable
    ASCII only (code points 32 to 126), also after a write that failed
    half way. *)
Theorem saved_file_is_printable_ascii (io : write_fault) (w : world) :
  io <> OpenFails ->
  exists text,
    file (save_inventory io w).1 = Some text /\ Forall printable text.
Proof.
  destruct io as [| |n]; [|done|]; intros _; eexists; (split; [reflexivity|]).
  - apply dumps_printable.
  - apply Forall_take, dumps_printable.
Qed.
End Text.

(** ** The file follows the inventory *)

Section Sync.
Context {FM : PyFloat} {FL : PyFloatLaws FM}.
Implicit Types (w : world) (io : write_fault) (a : action).

Lemma step_keeps_items_valid w a io :
  valid_action a -> Forall valid_item (inventory w) ->
  Forall valid_item (inventory (step w (a, io))).
Proof.
  intros Ha Hw. rewrite step_inventory. destruct a as [n c qty p i t|x|x p].
  - apply Forall_app. split; [done|]. apply Forall_singleton. exact Ha.
  - unfold delete. apply Forall_forall. intros item [_ Hin]%list_elem_of_filter.
    rewrite Forall_forall in Hw. auto.
  - apply Forall_forall. intros item [k Hk]%list_elem_of_lookup.
    rewrite update_prices_lookup in Hk.
    destruct (inventory w !! k) as [old|] eqn:Hold; [|done]. cbn in Hk.
    apply list_elem_of_lookup_2 in Hold. rewrite Forall_forall in Hw.
    specialize (Hw old Hold). destruct (decide (id old = x)); by simplify_eq.
Qed.

Lemma save_inventory_syncs w :
  Forall valid_item (inventory w) -> in_sync (save_inventory NoFault w).1.
Proof.
  intros Hvalid. unfold in_sync, save_inventory, load. cbn [fst file inventory].
  by apply loads_dumps, store_value_wf.
Qed.


Lemma update_price_without_match w x p io :
  x ∉ id_options (inventory w) -> update_price x p io w = (w, Ok ()).
Proof.
  intros Hx. unfold update_price.
  destruct (list_find _ _) as [[k item]|] eqn:Hfind; [|done].
  apply list_find_Some in Hfind as (Hk & Hid & _). destruct Hx.
  unfold id_options. rewrite <- Hid. eapply list_elem_of_fmap_2, list_elem_of_lookup_2, Hk.
Qed.

Lemma step_with_write w a :
  saves w a ->
  step w (a, NoFault)
  = (save_inventory NoFault {| inventory := inventory (step w (a, NoFault)); file := file w |}).1.
Proof.
  intros Hsaves. destruct a as [n c qty p i t|x|x p]; cbn [step fst].
  - done.
  - done.
  - unfold update_price at 1 2.
    destruct (list_find _ _) as [[k item]|] eqn:Hfind; [done|].
    apply list_find_None in Hfind. cbn in Hsaves.
    apply list_elem_of_fmap in Hsaves as (item & -> & Hin).
    rewrite Forall_forall in Hfind. by destruct (Hfind item Hin).
Qed.

(** X15.  After an addition, a deletion or a price update of an offered
    id whose write went through, a new session would start with exactly
    the inventory of this one, whatever the file held before. *)
Theorem successful_write_puts_file_in_sync w a :
  valid_action a -> Forall valid_item (inventory w) -> saves w a ->
  in_sync (step w (a, NoFault)).
Proof.
  intros Ha Hw Hsaves. rewrite step_with_write by done.
  apply save_inventory_syncs. cbn [inventory].
  by apply step_keeps_items_valid.
Qed.

(** X16.  While every write goes through, the file stays in step with the
    inventory: from a state where a new session would start with the
    current inventory, every run of actions leads to such a state. *)
Theorem in_sync_while_writes_succeed w (acts : list (action * write_fault)) :
  Forall (fun act => valid_action act.1 /\ act.2 = NoFault) acts ->
  Forall valid_item (inventory w) -> in_sync w ->
  in_sync (run w acts) /\ Forall valid_item (inventory (run w acts)).
Proof.
  intros Hacts Hvalid Hsync.
  induction acts as [|[a io] acts IH] using rev_ind; [done|].
  apply Forall_app in Hacts as [Hacts Ha]. rewrite Forall_singleton in Ha.
  destruct Ha as [Ha Hio]. cbn in Ha, Hio. subst io.
  destruct (IH Hacts) as [IHsync IHvalid]. rewrite run_snoc.
  split; [|by apply step_keeps_items_valid].
  destruct a as [n c qty p i t|x|x p];
    try (rewrite step_with_write by done; apply save_inventory_syncs; cbn [inventory];
         by apply step_keeps_items_valid).
  destruct (decide (x ∈ id_options (inventory (run w acts)))) as [Hx|Hx].
  - rewrite step_with_write by done. apply save_inventory_syncs. cbn [inventory].
    by apply step_keeps_items_valid.
  - cbn [step fst]. by rewrite update_price_without_match.
Qed.
End Sync.

(** ** More fuel, and more text after a value *)

Section Fuel.
Context {FM : PyFloat}.

(** More fuel does not change what the decoder returns. *)
Lemma decoder_fuel_mono (fuel : nat) :
  (forall fuel' s x, scan_once fuel s = Ok x -> (fuel <= fuel')%nat ->
     scan_once fuel' s = Ok x)
  /\ (forall fuel' s x, array_items fuel s = Ok x -> (fuel <= fuel')%nat ->
        array_items fuel' s = Ok x)
  /\ (forall fuel' s x, object_members fuel s = Ok x -> (fuel <= fuel')%nat ->
        object_members fuel' s = Ok x).
Proof.
  induction fuel as [|fuel (IHs & IHa & IHo)]; [done|].
  repeat split; intros [|fuel'] s x Hrun Hle; try lia;
    specialize (IHs fuel'); specialize (IHa fuel'); specialize (IHo fuel').
  - destruct s as [|c s1]; [done|]. rewrite scan_once_S in *.
    destruct (c =? 34); [done|].
    destruct (c =? 123).
    { destruct (skip_ws s1) as [|c' s2]; [done|].
      destruct (c' =? 125); [done|]. destruct (c' =? 34); [|done].
      destruct (object_members fuel s2) as [r|] eqn:Hcall; [|done].
      by rewrite (IHo _ _ Hcall) by lia. }
    destruct (c =? 91); [|done].
    destruct (skip_ws s1) as [|c' s2]; [done|].
    destruct (c' =? 93); [done|].
    destruct (array_items fuel (c' :: s2)) as [r|] eqn:Hcall; [|done].
    by rewrite (IHa _ _ Hcall) by lia.
  - rewrite array_items_S in *.
    destruct (scan_once fuel s) as [[v s1]|] eqn:Hcall; [|done].
    rewrite (IHs _ _ Hcall) by lia. cbn [mbind result_bind] in *.
    destruct (skip_ws s1) as [|c s2]; [done|].
    destruct (c =? 93); [done|]. destruct (c =? 44); [|done].
    destruct (array_items fuel (skip_ws s2)) as [r|] eqn:Hrest; [|done].
    by rewrite (IHa _ _ Hrest) by lia.
  - rewrite object_members_S in *.
    destruct (scanstring s) as [[key s1]|]; [|done]. cbn [mbind result_bind] in *.
    destruct (skip_ws s1) as [|c s2]; [done|].
    destruct (c =? 58); [|done].
    destruct (scan_once fuel (skip_ws s2)) as [[v s3]|] eqn:Hcall; [|done].
    rewrite (IHs _ _ Hcall) by lia. cbn [mbind result_bind] in *.
    destruct (skip_ws s3) as [|c' s4]; [done|].
    destruct (c' =? 125); [done|]. destruct (c' =? 44); [|done].
    destruct (skip_ws s4) as [|q s5]; [done|]. destruct (q =? 34); [|done].
    destruct (object_members fuel s5) as [r|] eqn:Hrest; [|done].
    by rewrite (IHo _ _ Hrest) by lia.
Qed.
End Fuel.

(** ** Reading goes on the same way when text is added at the end *)

Lemma skip_ws_app s q : skip_ws s <> [] -> skip_ws (s ++ q) = skip_ws s ++ q.
Proof.
  induction s as [|c s IH]; [done|]. cbn. destruct (is_ws c); [exact IH|done].
Qed.

Lemma skip_ws_head s c s' :
  skip_ws s = c :: s' -> exists d t, s = d :: t /\ (d = c \/ is_ws d = true).
Proof.
  destruct s as [|d t]; [done|]. cbn. destruct (is_ws d) eqn:Hd.
  - intros _. eauto.
  - intros [= -> ->]. eauto.
Qed.

Lemma terminated_before s c s' :
  skip_ws s = c :: s' -> c <> 46 -> c <> 101 -> c <> 69 -> terminated s.
Proof.
  intros (d & t & -> & [->|Hd])%skip_ws_head ? ? ?; [done|]. cbn.
  unfold is_ws in Hd.
  repeat (apply orb_true_iff in Hd as [Hd|Hd]); apply N.eqb_eq in Hd as ->; lia.
Qed.

Lemma strip_Some p s r : strip p s = Some r <-> s = p ++ r.
Proof.
  revert s. induction p as [|a p IH]; intros s; cbn.
  - split; [by intros [= ->]|by intros ->].
  - destruct s as [|b s]; [done|]. destruct (N.eqb_spec a b) as [->|Hne].
    + rewrite IH. split; [by intros ->|by intros [= ->]].
    + split; [done|]. intros [= ? _]. done.
Qed.

Lemma span_digits_extend s q :
  (span_digits s).2 <> [] ->
  span_digits (s ++ q) = ((span_digits s).1, (span_digits s).2 ++ q).
Proof.
  induction s as [|c s IH]; [done|]. cbn.
  destruct (is_digit c); [|done].
  destruct (span_digits s) as [ds rest]. cbn in *. intros Hrest.
  by rewrite IH.
Qed.

Lemma lex_integer_extend s i r q :
  lex_integer s = Some (i, r) -> r <> [] -> lex_integer (s ++ q) = Some (i, r ++ q).
Proof.
  assert (forall (sign t : str),
            match t with
            | c :: s2 =>
                if c =? 48 then Some (sign ++ [c], s2)
                else if is_digit c then
                  let '(ds, rest) := span_digits s2 in Some (sign ++ c :: ds, rest)
                else None
            | [] => None
            end = Some (i, r) -> r <> [] ->
            match t ++ q with
            | c :: s2 =>
                if c =? 48 then Some (sign ++ [c], s2)
                else if is_digit c then
                  let '(ds, rest) := span_digits s2 in Some (sign ++ c :: ds, rest)
                else None
            | [] => None
            end = Some (i, r ++ q)) as Hunsigned.
  { intros sign [|c s2]; [done|]. cbn [app].
    destruct (c =? 48); [by intros [= <- <-]|].
    destruct (is_digit c); [|done].
    pose proof (span_digits_extend s2 q) as Hspan.
    destruct (span_digits s2) as [ds rest]. cbn in Hspan.
    intros [= <- <-] Hr. by rewrite Hspan. }
  unfold lex_integer. destruct s as [|c s]; [done|]. cbn [app].
  destruct (c =? 45); [apply Hunsigned|apply (Hunsigned [] (c :: s))].
Qed.

Lemma lex_frac_extend s f r q :
  lex_frac s = (f, r) -> match r with c :: _ => c <> 46 | [] => False end ->
  lex_frac (s ++ q) = (f, r ++ q).
Proof.
  destruct s as [|c s].
  { cbn. by intros [= <- <-]. }
  cbn [lex_frac app]. destruct (N.eqb_spec c 46) as [->|Hc].
  - pose proof (span_digits_extend s q) as Hspan.
    destruct (span_digits s) as [[|d ds] rest]; cbn in Hspan.
    + intros [= <- <-] []. done.
    + intros [= <- <-] Hr. rewrite Hspan; [done|]. by destruct rest.
  - by intros [= <- <-].
Qed.

Lemma lex_exp_extend s e r q :
  lex_exp s = (e, r) ->
  match r with c :: _ => c <> 101 /\ c <> 69 | [] => False end ->
  lex_exp (s ++ q) = (e, r ++ q).
Proof.
  destruct s as [|c s].
  { cbn. by intros [= <- <-]. }
  cbn [lex_exp app]. destruct ((c =? 101) || (c =? 69)) eqn:Hc.
  - assert (c = 101 \/ c = 69) as Hc'
      by (apply orb_true_iff in Hc as [?%N.eqb_eq|?%N.eqb_eq]; auto).
    destruct s as [|d s].
    { cbn. intros [= <- <-] [? ?]. lia. }
    cbn [app]. destruct ((d =? 45) || (d =? 43)).
    + pose proof (span_digits_extend s q) as Hspan.
      destruct (span_digits s) as [[|? ?] rest]; cbn in Hspan.
      * intros [= <- <-] [? ?]. lia.
      * intros [= <- <-] Hr. rewrite Hspan; [done|]. by destruct rest.
    + pose proof (span_digits_extend (d :: s) q) as Hspan.
      destruct (span_digits (d :: s)) as [[|? ?] rest]; cbn [fst snd] in Hspan.
      * intros [= <- <-] [? ?]. lia.
      * intros [= <- <-] Hr. cbn [app] in Hspan. rewrite Hspan; [done|]. by destruct rest.
  - by intros [= <- <-].
Qed.

Lemma lex_number_extend s i f e r q :
  lex_number s = Some (i, f, e, r) -> terminated r ->
  lex_number (s ++ q) = Some (i, f, e, r ++ q).
Proof.
  unfold lex_number, terminated.
  destruct (lex_integer s) as [[i' s1]|] eqn:Hint; [|done].
  destruct (lex_frac s1) as [f' s2] eqn:Hfrac.
  destruct (lex_exp s2) as [e' s3] eqn:Hexp.
  intros [= <- <- <- <-] Hr.
  assert (match s2 with c :: _ => c <> 46 | [] => False end) as Hs2.
  { destruct s2 as [|c s2]; [by destruct s3|].
    cbn in Hexp. destruct ((c =? 101) || (c =? 69)) eqn:Hc.
    - apply orb_true_iff in Hc as [->%N.eqb_eq| ->%N.eqb_eq]; lia.
    - injection Hexp as <- <-. tauto. }
  assert (s1 <> []) as Hs1.
  { intros ->. cbn in Hfrac. injection Hfrac as <- <-. done. }
  rewrite (lex_integer_extend _ _ _ q Hint Hs1).
  rewrite (lex_frac_extend _ _ _ q Hfrac Hs2).
  rewrite (lex_exp_extend _ _ _ q Hexp); [done|]. destruct s3; tauto.
Qed.

Lemma scanstring_u (h1 h2 h3 h4 : char) (s3 : str) :
  scanstring (92 :: 117 :: h1 :: h2 :: h3 :: h4 :: s3)
  = match unhex4 h1 h2 h3 h4 with
    | Some u => after_escape u s3
    | None => Raise JSONDecodeError
    end.
Proof. reflexivity. Qed.

Lemma after_escape_other u s3 :
  (forall t, s3 <> 92 :: 117 :: t) ->
  after_escape u s3 = '(cs, rest) ← scanstring s3; Ok (u :: cs, rest).
Proof.
  intros Hhead. unfold after_escape. destruct (is_high_surrogate u); [|done].
  destruct s3 as [|b [|e' [|k1 [|k2 [|k3 [|k4 s4]]]]]]; try done.
  destruct (N.eqb_spec b 92) as [->|]; [|done].
  destruct (N.eqb_spec e' 117) as [->|]; [|done].
  by destruct (Hhead (k1 :: k2 :: k3 :: k4 :: s4)).
Qed.

(** A text that [scanstring] accepts and that starts with the two
    characters of a [\u] escape has the four digits of the escape and the
    closing quote. *)
Lemma scanstring_u_length (t : str) x r :
  scanstring (92 :: 117 :: t) = Ok (x, r) -> (5 <= length t)%nat.
Proof.
  destruct t as [|h1 [|h2 [|h3 [|h4 [|c s3]]]]]; try done; [|cbn; lia].
  rewrite scanstring_u. destruct (unhex4 h1 h2 h3 h4) as [u|]; [|done].
  rewrite after_escape_other by done. done.
Qed.

Lemma scanstring_extend s x r q :
  scanstring s = Ok (x, r) -> scanstring (s ++ q) = Ok (x, r ++ q).
Proof.
  remember (length s) as n eqn:Hn. revert s x r Hn.
  induction n as [n IH] using lt_wf_ind. intros s x r -> Hscan.
  assert (forall (t : str) (c : char),
            (length t < length s)%nat ->
            ('(cs, rest) ← scanstring t; Ok (c :: cs, rest)) = Ok (x, r) ->
            ('(cs, rest) ← scanstring (t ++ q); Ok (c :: cs, rest)) = Ok (x, r ++ q))
    as Hcons.
  { intros t c Ht Hbind. destruct (scanstring t) as [[cs rest]|] eqn:Ht'; [|done].
    rewrite (IH _ Ht t cs rest eq_refl Ht'). cbn in *. by simplify_eq. }
  clear IH. destruct s as [|c s1]; [done|].
  cbn [app]. cbn [scanstring] in Hscan |- *.
  destruct (c =? 34); [by simplify_eq|].
  destruct (c =? 92).
  - destruct s1 as [|e s2]; [done|]. cbn [app]. destruct (e =? 117) eqn:He.
    + destruct s2 as [|h1 [|h2 [|h3 [|h4 s3]]]]; try done. cbn [app].
      destruct (unhex4 h1 h2 h3 h4) as [u|]; [|done].
      change (let single := '(cs, rest) ← scanstring s3; Ok (u :: cs, rest) in
              if is_high_surrogate u
              then match s3 with
                   | b :: e' :: k1 :: k2 :: k3 :: k4 :: s4 =>
                       if (b =? 92) && (e' =? 117)
                       then match unhex4 k1 k2 k3 k4 with
                            | Some u2 =>
                                if is_low_surrogate u2
                                then '(cs, rest) ← scanstring s4;
                                     Ok (65536 + N.lor (N.shiftl (u - 55296) 10) (u2 - 56320)
                                         :: cs, rest)
                                else single
                            | None => Raise JSONDecodeError
                            end
                       else single
                   | _ => single
                   end
              else single) with (after_escape u s3) in Hscan.
      change (after_escape u s3 = Ok (x, r)) in Hscan.
      change (after_escape u (s3 ++ q) = Ok (x, r ++ q)).
      destruct (decide (6 <= length s3)%nat) as [Hlong|Hshort].
      * destruct s3 as [|b [|e' [|k1 [|k2 [|k3 [|k4 s4]]]]]]; cbn in Hlong; try lia.
        unfold after_escape in *. cbn [app].
        destruct (is_high_surrogate u);
          [|apply (Hcons (b :: e' :: k1 :: k2 :: k3 :: k4 :: s4)); [cbn; lia|done]].
        destruct ((b =? 92) && (e' =? 117));
          [|apply (Hcons (b :: e' :: k1 :: k2 :: k3 :: k4 :: s4)); [cbn; lia|done]].
        destruct (unhex4 k1 k2 k3 k4) as [u2|]; [|done].
        destruct (is_low_surrogate u2);
          [apply Hcons; [cbn; lia|done]
          |apply (Hcons (b :: e' :: k1 :: k2 :: k3 :: k4 :: s4)); [cbn; lia|done]].
      * assert (forall t, s3 <> 92 :: 117 :: t) as Hhead.
        { intros t ->. unfold after_escape in Hscan.
          assert (('(cs, rest) ← scanstring (92 :: 117 :: t); Ok (u :: cs, rest))
                  = Ok (x, r)) as Hsingle.
          { destruct (is_high_surrogate u); [|done].
            destruct t as [|k1 [|k2 [|k3 [|k4 s4]]]]; try done. cbn in Hshort. lia. }
          destruct (scanstring (92 :: 117 :: t)) as [[cs rest]|] eqn:Ht; [|done].
          apply scanstring_u_length in Ht. cbn in Hshort. lia. }
        rewrite after_escape_other in Hscan by done.
        rewrite after_escape_other.
        -- apply Hcons; [cbn; lia|done].
        -- intros t Ht. destruct s3 as [|b [|e' s3]].
           ++ done.
           ++ cbn in Hscan. destruct (b =? 34) eqn:Hb; [|].
              ** apply N.eqb_eq in Hb as ->. by injection Ht.
              ** destruct (b =? 92); [done|]. by destruct (b <=? 31).
           ++ injection Ht as -> -> _. by destruct (Hhead s3).
    + destruct (unescape e); [|done]. apply Hcons; [cbn; lia|done].
  - destruct (c <=? 31); [done|]. apply Hcons; [cbn; lia|done].
Qed.

Section Extend.
Context {FM : PyFloat}.

Lemma scan_number_extend s v r q :
  scan_number s = Some (v, r) -> terminated r ->
  scan_number (s ++ q) = Some (v, r ++ q).
Proof.
  unfold scan_number. destruct (lex_number s) as [[[[i f] e] r']|] eqn:Hlex; [|done].
  intros Hv Hr.
  assert (r' = r) as -> by (destruct f, e; by simplify_eq).
  rewrite (lex_number_extend _ _ _ _ _ q Hlex Hr).
  destruct f, e; by simplify_eq.
Qed.

(** What [scan_atom] accepted. *)
Lemma scan_atom_inv s v r :
  scan_atom s = Ok (v, r) ->
  (v = PNone /\ s = NULL ++ r) \/ (v = PBool true /\ s = TRUE ++ r)
  \/ (v = PBool false /\ s = FALSE ++ r)
  \/ scan_number s = Some (v, r)
  \/ (v = PFloat NaN /\ s = NAN ++ r) \/ (v = PFloat PosInf /\ s = INFINITY ++ r)
  \/ (v = PFloat NegInf /\ s = NEG_INFINITY ++ r).
Proof.
  unfold scan_atom.
  repeat match goal with
  | |- context [strip ?p s] =>
      let H := fresh in
      destruct (strip p s) eqn:H;
      [apply strip_Some in H; intros [= <- <-]; tauto|clear H]
  | |- context [scan_number s] =>
      let H := fresh in
      destruct (scan_number s) as [[? ?]|] eqn:H;
      [intros [= <- <-]; tauto|clear H]
  end.
  done.
Qed.

Lemma scan_atom_extend s v r q :
  scan_atom s = Ok (v, r) -> terminated r ->
  scan_atom (s ++ q) = Ok (v, r ++ q).
Proof.
  intros Hscan Hr.
  destruct (scan_atom_inv _ _ _ Hscan)
    as [[-> ->]|[[-> ->]|[[-> ->]|[Hnum|[[-> ->]|[[-> ->]|[-> ->]]]]]]];
    try (rewrite <- app_assoc; reflexivity).
  pose proof (scan_number_extend _ _ _ q Hnum Hr) as Hnum'.
  assert (exists c t, s = c :: t /\ (c = 45 \/ 48 <= c <= 57)) as (c & t & -> & Hc).
  { unfold scan_number, lex_number in Hnum.
    destruct (lex_integer s) as [ir|] eqn:Hint; [|done].
    by apply lex_integer_head in Hint. }
  by apply scan_atom_number.
Qed.

Lemma array_items_nil fuel x : array_items fuel [] <> Ok x.
Proof. destruct fuel as [|[|fuel]]; done. Qed.

Lemma scan_once_nil fuel x : scan_once fuel [] <> Ok x.
Proof. by destruct fuel. Qed.

(** The decoder returns the same value, and leaves the added text, when
    text is added after a value that is closed by its last character or
    followed by a character that ends it. *)
Lemma decoder_extend (fuel : nat) (q : str) :
  (forall s v r, scan_once fuel s = Ok (v, r) -> opens s \/ terminated r ->
     scan_once fuel (s ++ q) = Ok (v, r ++ q))
  /\ (forall s l r, array_items fuel s = Ok (l, r) ->
        array_items fuel (s ++ q) = Ok (l, r ++ q))
  /\ (forall s d r, object_members fuel s = Ok (d, r) ->
        object_members fuel (s ++ q) = Ok (d, r ++ q)).
Proof.
  induction fuel as [|fuel (IHs & IHa & IHo)]; [done|].
  repeat split.
  - intros [|c s1] v r Hrun Hend; [done|]. cbn [app]. rewrite scan_once_S in *.
    destruct (N.eqb_spec c 34) as [->|H34].
    { destruct (scanstring s1) as [[x rest]|] eqn:Hstr; [|done].
      rewrite (scanstring_extend _ _ _ q Hstr). cbn in *. by simplify_eq. }
    destruct (N.eqb_spec c 123) as [->|H123].
    { destruct (skip_ws s1) as [|c' s2] eqn:Hws; [done|].
      rewrite skip_ws_app by (by rewrite Hws). rewrite Hws. cbn [app].
      destruct (c' =? 125); [by simplify_eq|]. destruct (c' =? 34); [|done].
      destruct (object_members fuel s2) as [[pairs rest]|] eqn:Hcall; [|done].
      rewrite (IHo _ _ _ Hcall). cbn in *. by simplify_eq. }
    destruct (N.eqb_spec c 91) as [->|H91].
    { destruct (skip_ws s1) as [|c' s2] eqn:Hws; [done|].
      rewrite skip_ws_app by (by rewrite Hws). rewrite Hws. cbn [app].
      destruct (c' =? 93); [by simplify_eq|].
      destruct (array_items fuel (c' :: s2)) as [[values rest]|] eqn:Hcall; [|done].
      apply IHa in Hcall. cbn [app] in Hcall. rewrite Hcall. cbn in *. by simplify_eq. }
    destruct Hend as [[?|[?|?]]|Hend]; [done..|].
    by apply (scan_atom_extend (c :: s1)).
  - intros s l r Hrun. rewrite array_items_S in *.
    destruct (scan_once fuel s) as [[v s1]|] eqn:Hcall; [|done].
    cbn [mbind result_bind] in Hrun.
    destruct (skip_ws s1) as [|c s2] eqn:Hws; [done|].
    assert (terminated s1) as Hterm.
    { apply (terminated_before _ _ _ Hws);
        intros ->; cbn in Hrun; done. }
    rewrite (IHs _ _ _ Hcall) by auto. cbn [mbind result_bind].
    rewrite skip_ws_app by (by rewrite Hws). rewrite Hws. cbn [app].
    destruct (c =? 93); [by simplify_eq|]. destruct (c =? 44); [|done].
    destruct (array_items fuel (skip_ws s2)) as [[values rest]|] eqn:Hrest; [|done].
    assert (skip_ws s2 <> []) as Hne
      by (intros Hnil; rewrite Hnil in Hrest; by apply array_items_nil in Hrest).
    rewrite skip_ws_app by done. rewrite (IHa _ _ _ Hrest). cbn in *. by simplify_eq.
  - intros s d r Hrun. rewrite object_members_S in *.
    destruct (scanstring s) as [[key s1]|] eqn:Hkey; [|done].
    rewrite (scanstring_extend _ _ _ q Hkey). cbn [mbind result_bind] in *.
    destruct (skip_ws s1) as [|c s2] eqn:Hws; [done|].
    rewrite skip_ws_app by (by rewrite Hws). rewrite Hws. cbn [app].
    destruct (c =? 58); [|done].
    destruct (scan_once fuel (skip_ws s2)) as [[v s3]|] eqn:Hcall; [|done].
    assert (skip_ws s2 <> []) as Hne
      by (intros Hnil; rewrite Hnil in Hcall; by apply scan_once_nil in Hcall).
    cbn [mbind result_bind] in Hrun.
    destruct (skip_ws s3) as [|c' s4] eqn:Hws3; [done|].
    assert (terminated s3) as Hterm.
    { apply (terminated_before _ _ _ Hws3);
        intros ->; cbn in Hrun; done. }
    rewrite skip_ws_app by done. rewrite (IHs _ _ _ Hcall) by auto.
    cbn [mbind result_bind].
    rewrite skip_ws_app by (by rewrite Hws3). rewrite Hws3. cbn [app].
    destruct (c' =? 125); [by simplify_eq|]. destruct (c' =? 44); [|done].
    destruct (skip_ws s4) as [|q' s5] eqn:Hws4; [done|].
    rewrite skip_ws_app by (by rewrite Hws4). rewrite Hws4. cbn [app].
    destruct (q' =? 34); [|done].
    destruct (object_members fuel s5) as [[pairs rest]|] eqn:Hrest; [|done].
    rewrite (IHo _ _ _ Hrest). cbn in *. by simplify_eq.
Qed.
End Extend.

(** ** A write that stops half way *)

Section Torn.
Context {FM : PyFloat} {FL : PyFloatLaws FM}.

(** No proper prefix of the text of a list is JSON. *)
Lemma loads_proper_prefix (l : list pyval) (n : nat) :
  wf_val (PList l) -> (n < length (dumps (PList l)))%nat ->
  loads (take n (dumps (PList l))) = Raise JSONDecodeError.
Proof.
  intros Hwf Hn.
  remember (dumps (PList l)) as text eqn:Htext.
  assert (text = take n text ++ drop n text) as Hsplit by (by rewrite take_drop).
  assert (drop n text <> []) as Hq.
  { intros Hnil. apply (f_equal length) in Hnil. rewrite length_drop in Hnil.
    cbn in Hnil. lia. }
  destruct (loads (take n text)) as [v|e] eqn:Hloads;
    [|by apply loads_raises_decode_error in Hloads as ->].
  exfalso. unfold loads in Hloads.
  destruct (take n text) as [|c p] eqn:Hp; [done|].
  assert (c = 91) as ->.
  { rewrite Htext in Hsplit at 1. cbn [dumps] in Hsplit. by injection Hsplit as <- _. }
  cbn [starts_with_bom N.eqb Pos.eqb] in Hloads.
  rewrite skip_ws_start in Hloads by (unfold value_start; auto).
  destruct (scan_once _ _) as [[v' r]|] eqn:Hscan; [|done].
  match type of Hscan with scan_once ?f _ = _ => set (fuel0 := f) in * end.
  destruct (decoder_extend fuel0 (drop n text)) as (Hext & _ & _).
  apply Hext in Hscan; [|left; cbn; auto]. rewrite <- Hsplit in Hscan.
  destruct (decoder_fuel_mono fuel0) as (Hmono & _ & _).
  apply (Hmono (fuel0 + cost (PList l))%nat) in Hscan; [|lia].
  pose proof (scan_once_dumps (PList l) Hwf
                (fuel0 + cost (PList l))%nat [] ltac:(lia) I) as Hback.
  rewrite app_nil_r, <- Htext in Hback. rewrite Hback in Hscan.
  injection Hscan as _ Hrest. symmetry in Hrest.
  apply app_eq_nil in Hrest as [_ Hrest]. done.
Qed.

(** X17.  A write that fails after [n] characters leaves a file that the
    next session cannot load, as [json.load] raises [JSONDecodeError],
    when [n] is less than the length of the text; the file is never a
    shorter inventory.  When the whole text was written, the file loads
    as the inventory. *)
Theorem torn_write_is_refused (w : world) (n : nat) :
  Forall valid_item (inventory w) ->
  let text := dumps (store_value (inventory w)) in
  ((n < length text)%nat ->
     load (file (save_inventory (WriteFails n) w).1) = Raise JSONDecodeError)
  /\ ((length text <= n)%nat ->
        load (file (save_inventory (WriteFails n) w).1) = Ok (store_value (inventory w))).
Proof.
  intros Hvalid. cbn zeta. unfold save_inventory, load. cbn [fst file]. split.
  - intros Hn. apply loads_proper_prefix; [by apply store_value_wf|done].
  - intros Hn. rewrite take_ge by done. by apply loads_dumps, store_value_wf.
Qed.
End Torn.

(** ** What the decoder returns is well formed *)

Lemma hex_value_bound c d : hex_value c = Some d -> d < 16.
Proof.
  unfold hex_value. destruct (is_digit c) eqn:Hd.
  { apply is_digit_bounds in Hd. intros [= <-]. lia. }
  destruct ((97 <=? c) && (c <=? 102)) eqn:Hl.
  { apply andb_true_iff in Hl as [?%N.leb_le ?%N.leb_le]. intros [= <-]. lia. }
  destruct ((65 <=? c) && (c <=? 70)) eqn:Hu; [|done].
  apply andb_true_iff in Hu as [?%N.leb_le ?%N.leb_le]. intros [= <-]. lia.
Qed.

Lemma unhex4_bound h1 h2 h3 h4 u : unhex4 h1 h2 h3 h4 = Some u -> u < 65536.
Proof.
  unfold unhex4.
  destruct (hex_value h1) as [a|] eqn:Ha; [|done].
  destruct (hex_value h2) as [b|] eqn:Hb; [|done].
  destruct (hex_value h3) as [c|] eqn:Hc; [|done].
  destruct (hex_value h4) as [d|] eqn:Hd; [|done].
  apply hex_value_bound in Ha, Hb, Hc, Hd. intros [= <-]. lia.
Qed.

Lemma surrogates_joined u u2 :
  is_high_surrogate u = true -> is_low_surrogate u2 = true ->
  65536 <= 65536 + N.lor (N.shiftl (u - 55296) 10) (u2 - 56320) < 1114112.
Proof.
  intros [?%N.leb_le ?%N.leb_le]%andb_true_iff [?%N.leb_le ?%N.leb_le]%andb_true_iff.
  rewrite lor_shiftl_low by (change (2 ^ 10) with 1024; lia).
  change (2 ^ 10) with 1024. lia.
Qed.

Lemma valid_str_cons_intro c cs :
  c < 1114112 -> (is_high_surrogate c = true -> head_not_low cs) ->
  valid_str cs = true -> valid_str (c :: cs) = true.
Proof.
  intros Hc Hhigh Hcs. cbn [valid_str]. rewrite Hcs, andb_true_r.
  apply andb_true_iff. split; [by apply N.ltb_lt|].
  apply negb_true_iff. destruct (is_high_surrogate c); [|done].
  specialize (Hhigh eq_refl). by destruct cs.
Qed.

(** What [after_escape] accepted: one escape, not followed by the escape
    of a low surrogate if it names a high one, or a pair. *)
Lemma after_escape_inv u s3 x r :
  after_escape u s3 = Ok (x, r) ->
  (exists cs,
     scanstring s3 = Ok (cs, r) /\ x = u :: cs
     /\ (is_high_surrogate u = true ->
         forall k1 k2 k3 k4 t d,
           s3 = 92 :: 117 :: k1 :: k2 :: k3 :: k4 :: t ->
           unhex4 k1 k2 k3 k4 = Some d -> is_low_surrogate d = false))
  \/ (exists k1 k2 k3 k4 s4 u2 cs,
        s3 = 92 :: 117 :: k1 :: k2 :: k3 :: k4 :: s4
        /\ unhex4 k1 k2 k3 k4 = Some u2
        /\ is_high_surrogate u = true /\ is_low_surrogate u2 = true
        /\ scanstring s4 = Ok (cs, r)
        /\ x = (65536 + N.lor (N.shiftl (u - 55296) 10) (u2 - 56320)) :: cs).
Proof.
  unfold after_escape.
  assert (forall (Q : Prop),
            ('(cs, rest) ← scanstring s3; Ok (u :: cs, rest)) = Ok (x, r) ->
            (is_high_surrogate u = true ->
             forall k1 k2 k3 k4 t d,
               s3 = 92 :: 117 :: k1 :: k2 :: k3 :: k4 :: t ->
               unhex4 k1 k2 k3 k4 = Some d -> is_low_surrogate d = false) ->
            (exists cs,
               scanstring s3 = Ok (cs, r) /\ x = u :: cs
               /\ (is_high_surrogate u = true ->
                   forall k1 k2 k3 k4 t d,
                     s3 = 92 :: 117 :: k1 :: k2 :: k3 :: k4 :: t ->
                     unhex4 k1 k2 k3 k4 = Some d -> is_low_surrogate d = false))
            \/ Q) as Hsingle.
  { intros Q Hbind Hno. left.
    destruct (scanstring s3) as [[cs rest]|] eqn:Hcall; [|done]. cbn in Hbind.
    injection Hbind as <- <-. eauto. }
  assert (is_high_surrogate u = true \/ is_high_surrogate u = false) as [Hhigh|Hhigh]
    by (destruct (is_high_surrogate u); auto);
    intros H; rewrite Hhigh in H;
    [|apply Hsingle; [exact H|]; intros Hhigh'; congruence].
  destruct s3 as [|b [|e' [|k1 [|k2 [|k3 [|k4 s4]]]]]];
    try (apply Hsingle; [exact H|]; intros _ ? ? ? ? ? ? Heq; discriminate Heq).
  destruct ((b =? 92) && (e' =? 117)) eqn:Hbe.
  - apply andb_true_iff in Hbe as [->%N.eqb_eq ->%N.eqb_eq].
    destruct (unhex4 k1 k2 k3 k4) as [u2|] eqn:Hu2; [|done].
    destruct (is_low_surrogate u2) eqn:Hlow.
    + right. destruct (scanstring s4) as [[cs rest]|] eqn:Hcall; [|done]. cbn in H.
      injection H as <- <-. by eexists k1, k2, k3, k4, s4, u2, cs.
    + apply Hsingle; [exact H|].
      intros _ ? ? ? ? ? ? [= <- <- <- <- <-] Hd. congruence.
  - apply Hsingle; [exact H|].
    intros _ ? ? ? ? ? ? [= -> -> _]. done.
Qed.

(** The string [scanstring] returns from a clean text is a text in the
    sense of [valid_str]; a low surrogate at its head was written as an
    escape. *)
Lemma scanstring_valid s x r :
  scanstring s = Ok (x, r) -> clean s ->
  valid_str x = true /\ clean r
  /\ (forall d x', x = d :: x' -> is_low_surrogate d = true ->
        exists k1 k2 k3 k4 t,
          s = 92 :: 117 :: k1 :: k2 :: k3 :: k4 :: t /\ unhex4 k1 k2 k3 k4 = Some d).
Proof.
  remember (length s) as n eqn:Hn. revert s x r Hn.
  induction n as [n IH] using lt_wf_ind. intros s x r -> Hscan Hclean.
  assert (forall t cs r', (length t < length s)%nat -> scanstring t = Ok (cs, r') ->
            clean t ->
            valid_str cs = true /\ clean r'
            /\ (forall d x', cs = d :: x' -> is_low_surrogate d = true ->
                  exists k1 k2 k3 k4 t',
                    t = 92 :: 117 :: k1 :: k2 :: k3 :: k4 :: t'
                    /\ unhex4 k1 k2 k3 k4 = Some d)) as IH'
    by (intros t cs r' Ht; by apply (IH (length t))).
  clear IH.
  (* a character that is no surrogate, in front of a string from the rest *)
  assert (forall t c,
            (length t < length s)%nat -> clean t ->
            c < 1114112 -> ~ (55296 <= c <= 57343) ->
            ('(cs, rest) ← scanstring t; Ok (c :: cs, rest)) = Ok (x, r) ->
            valid_str x = true /\ clean r
            /\ (forall d x', x = d :: x' -> is_low_surrogate d = true ->
                  exists k1 k2 k3 k4 t',
                    s = 92 :: 117 :: k1 :: k2 :: k3 :: k4 :: t'
                    /\ unhex4 k1 k2 k3 k4 = Some d)) as Hplain.
  { intros t c Ht Hct Hc Hns Hbind.
    destruct (scanstring t) as [[cs rest]|] eqn:Hcall; [|done]. cbn in Hbind.
    injection Hbind as <- <-.
    destruct (IH' t cs rest Ht Hcall Hct) as (Hcs & Hrest & _).
    split; [|split; [done|]].
    - apply valid_str_cons_intro; [done| |done].
      intros [?%N.leb_le ?%N.leb_le]%andb_true_iff. lia.
    - intros d x' [= <- <-] [?%N.leb_le ?%N.leb_le]%andb_true_iff. lia. }
  destruct s as [|c s1]; [done|].
  apply Forall_cons in Hclean as [[Hc Hns] Hclean1].
  cbn [scanstring] in Hscan.
  destruct (N.eqb_spec c 34) as [->|H34].
  { injection Hscan as <- <-. split; [done|]. split; [done|]. done. }
  destruct (N.eqb_spec c 92) as [->|H92].
  - destruct s1 as [|e s2]; [done|].
    apply Forall_cons in Hclean1 as [_ Hclean2].
    destruct (N.eqb_spec e 117) as [->|Hu].
    + destruct s2 as [|h1 [|h2 [|h3 [|h4 s3]]]]; try done.
      assert (clean s3) as Hclean3.
      { do 4 apply Forall_cons in Hclean2 as [_ Hclean2]. done. }
      destruct (unhex4 h1 h2 h3 h4) as [u|] eqn:Hhex; [|done].
      pose proof (unhex4_bound _ _ _ _ _ Hhex) as Hbound.
      apply after_escape_inv in Hscan
        as [(cs & Hcall & -> & Hno)
           |(k1 & k2 & k3 & k4 & s4 & u2 & cs & -> & Hu2 & Hhigh & Hlow & Hcall & ->)].
      * destruct (IH' s3 cs r ltac:(cbn; lia) Hcall Hclean3) as (Hcs & Hrest & Hhead).
        split; [|split; [done|]].
        -- apply valid_str_cons_intro; [lia| |done].
           intros Hhigh. destruct cs as [|d cs']; [done|]. cbn.
           destruct (is_low_surrogate d) eqn:Hlow; [|done].
           destruct (Hhead d cs' eq_refl Hlow) as (k1 & k2 & k3 & k4 & t' & -> & Hd).
           by rewrite (Hno Hhigh _ _ _ _ _ _ eq_refl Hd) in Hlow.
        -- intros d x' [= <- <-] _. by eexists h1, h2, h3, h4, s3.
      * assert (clean s4) as Hclean4.
        { do 6 apply Forall_cons in Hclean3 as [_ Hclean3]. done. }
        destruct (IH' s4 cs r ltac:(cbn; lia) Hcall Hclean4) as (Hcs & Hrest & _).
        pose proof (surrogates_joined u u2 Hhigh Hlow) as Hj.
        split; [|split; [done|]].
        -- apply valid_str_cons_intro; [lia| |done].
           intros [?%N.leb_le ?%N.leb_le]%andb_true_iff. lia.
        -- intros d x' [= <- <-] [?%N.leb_le ?%N.leb_le]%andb_true_iff. lia.
    + destruct (unescape e) as [d|] eqn:He; [|done].
      assert (d < 128) as Hd.
      { unfold unescape in He.
        repeat match type of He with
        | (if ?b then _ else _) = _ => destruct b
        end; simplify_eq; lia. }
      apply (Hplain s2 d); [cbn; lia|done|lia|lia|done].
  - destruct (c <=? 31); [done|].
    apply (Hplain s1 c); [cbn; lia|done..].
Qed.

Lemma clean_skip_ws s : clean s -> clean (skip_ws s).
Proof.
  induction 1 as [|c s Hc Hs IH]; [constructor|]. cbn.
  destruct (is_ws c); [done|by constructor].
Qed.

Lemma span_digits_suffix s : exists pre, s = pre ++ (span_digits s).2.
Proof.
  induction s as [|c s [pre IH]]; [by exists []|]. cbn.
  destruct (is_digit c); [|by exists []].
  destruct (span_digits s) as [ds rest]. cbn in *. exists (c :: pre). by rewrite IH at 1.
Qed.

Lemma lex_number_suffix s i f e r :
  lex_number s = Some (i, f, e, r) -> exists pre, s = pre ++ r.
Proof.
  unfold lex_number.
  destruct (lex_integer s) as [[i' s1]|] eqn:Hint; [|done].
  destruct (lex_frac s1) as [f' s2] eqn:Hfrac.
  destruct (lex_exp s2) as [e' s3] eqn:Hexp.
  intros [= <- <- <- <-].
  assert (exists pre, s = pre ++ s1) as [p1 ->].
  { unfold lex_integer in Hint. destruct s as [|c s]; [done|].
    assert (forall sign (t : str),
              match t with
              | c :: s2 =>
                  if c =? 48 then Some (sign ++ [c], s2)
                  else if is_digit c then
                    let '(ds, rest) := span_digits s2 in Some (sign ++ c :: ds, rest)
                  else None
              | [] => None
              end = Some (i', s1) -> exists pre, t = pre ++ s1) as Hunsigned.
    { intros sign [|d t]; [done|]. destruct (d =? 48).
      - intros [= <- <-]. by exists [d].
      - destruct (is_digit d); [|done].
        destruct (span_digits_suffix t) as [pre Hpre].
        destruct (span_digits t) as [ds rest]. cbn in Hpre.
        intros [= <- <-]. exists (d :: pre). by rewrite Hpre at 1. }
    destruct (c =? 45).
    - apply Hunsigned in Hint as [pre ->]. by exists (c :: pre).
    - by apply (Hunsigned [] (c :: s)) in Hint. }
  assert (exists pre, s1 = pre ++ s2) as [p2 ->].
  { destruct s1 as [|c s1]; [cbn in Hfrac; injection Hfrac as <- <-; by exists []|].
    cbn in Hfrac. destruct (c =? 46); [|injection Hfrac as <- <-; by exists []].
    destruct (span_digits_suffix s1) as [pre Hpre].
    destruct (span_digits s1) as [[|d ds] rest]; injection Hfrac as <- <-;
      [by exists []|]. cbn in Hpre. exists (c :: pre). by rewrite Hpre at 1. }
  assert (exists pre, s2 = pre ++ s3) as [p3 ->].
  { destruct s2 as [|c s2]; [cbn in Hexp; injection Hexp as <- <-; by exists []|].
    cbn in Hexp. destruct ((c =? 101) || (c =? 69)); [|injection Hexp as <- <-; by exists []].
    destruct s2 as [|d s2].
    { cbn in Hexp. injection Hexp as <- <-. by exists []. }
    destruct ((d =? 45) || (d =? 43)).
    - destruct (span_digits_suffix s2) as [pre Hpre].
      destruct (span_digits s2) as [[|? ?] rest]; injection Hexp as <- <-;
        [by exists []|]. cbn in Hpre. exists (c :: d :: pre). by rewrite Hpre at 1.
    - destruct (span_digits_suffix (d :: s2)) as [pre Hpre].
      destruct (span_digits (d :: s2)) as [[|? ?] rest]; injection Hexp as <- <-;
        [by exists []|]. cbn [snd] in Hpre. exists (c :: pre).
      cbn [app]. by rewrite Hpre at 1. }
  exists (p1 ++ p2 ++ p3). by rewrite <- !app_assoc.
Qed.

Section Wf.
Context {FM : PyFloat}.

Lemma scan_atom_wf s v r : scan_atom s = Ok (v, r) -> clean s -> wf_val v /\ clean r.
Proof.
  intros Hscan Hclean.
  destruct (scan_atom_inv _ _ _ Hscan)
    as [[-> ->]|[[-> ->]|[[-> ->]|[Hnum|[[-> ->]|[[-> ->]|[-> ->]]]]]]];
    try (apply Forall_app in Hclean as [_ ?]; split; [constructor|done]).
  unfold scan_number in Hnum.
  destruct (lex_number s) as [[[[i f] e] r']|] eqn:Hlex; [|done].
  apply lex_number_suffix in Hlex as [pre ->].
  apply Forall_app in Hclean as [_ ?].
  destruct f, e; simplify_eq; (split; [constructor|done]).
Qed.

Lemma dict_set_keys (d : list (str * pyval)) k v :
  (dict_set d k v).*1 = if decide (k ∈ d.*1) then d.*1 else d.*1 ++ [k].
Proof.
  induction d as [|[k' v'] d IH]; [done|]. cbn.
  destruct (decide (k' = k)) as [->|Hne].
  - cbn. rewrite decide_True by left. done.
  - cbn. rewrite IH. destruct (decide (k ∈ d.*1)).
    + rewrite decide_True by (by right). done.
    + rewrite decide_False; [done|]. rewrite elem_of_cons. intros [?|?]; congruence.
Qed.

Lemma dict_set_Forall (P : str * pyval -> Prop) d k v :
  P (k, v) -> Forall P d -> (forall v', P (k, v') -> P (k, v)) -> Forall P (dict_set d k v).
Proof.
  intros Hkv Hd _. induction Hd as [|[k' v'] d Hk' Hd IH]; cbn.
  - by constructor.
  - destruct (decide (k' = k)) as [->|]; by constructor.
Qed.

Lemma dict_of_pairs_wf (pairs : list (str * pyval)) :
  Forall (fun kv => valid_str kv.1 = true /\ wf_val kv.2) pairs ->
  wf_val (PDict (dict_of_pairs pairs)).
Proof.
  intros Hpairs. unfold dict_of_pairs.
  assert (forall acc : list (str * pyval),
            NoDup acc.*1 ->
            Forall (fun kv => valid_str kv.1 = true /\ wf_val kv.2) acc ->
            let d := fold_left (fun d kv => dict_set d kv.1 kv.2) pairs acc in
            NoDup d.*1 /\ Forall (fun kv => valid_str kv.1 = true /\ wf_val kv.2) d)
    as Hfold.
  { induction Hpairs as [|[k v] pairs Hkv _ IH]; intros acc Hnd Hacc; cbn; [done|].
    apply IH.
    - rewrite dict_set_keys. destruct (decide (k ∈ acc.*1)); [done|].
      apply NoDup_app. split; [done|]. split; [|apply NoDup_singleton].
      intros x Hx ->%list_elem_of_singleton. done.
    - by apply dict_set_Forall. }
  destruct (Hfold [] (NoDup_nil_2) (Forall_nil_2 _)) as [Hnd Hall].
  by constructor.
Qed.

(** The value the decoder returns from a clean text is well formed. *)
Lemma decoder_wf (fuel : nat) :
  (forall s v r, scan_once fuel s = Ok (v, r) -> clean s -> wf_val v /\ clean r)
  /\ (forall s l r, array_items fuel s = Ok (l, r) -> clean s ->
        Forall wf_val l /\ clean r)
  /\ (forall s d r, object_members fuel s = Ok (d, r) -> clean s ->
        Forall (fun kv => valid_str kv.1 = true /\ wf_val kv.2) d /\ clean r).
Proof.
  induction fuel as [|fuel (IHs & IHa & IHo)]; [done|].
  split; [|split].
  - intros [|c s1] v r Hrun Hclean; [done|]. rewrite scan_once_S in Hrun.
    pose proof Hclean as [_ Hclean1]%Forall_cons.
    pose proof (clean_skip_ws _ Hclean1) as Hws.
    destruct (c =? 34).
    { destruct (scanstring s1) as [[x rest]|] eqn:Hstr; [|done].
      apply scanstring_valid in Hstr as (? & ? & _); [|done].
      cbn in Hrun. injection Hrun as <- <-. split; [by constructor|done]. }
    destruct (c =? 123).
    { destruct (skip_ws s1) as [|c' s2]; [done|].
      apply Forall_cons in Hws as [_ Hs2].
      destruct (c' =? 125).
      { injection Hrun as <- <-. split; [by repeat constructor|done]. }
      destruct (c' =? 34); [|done].
      destruct (object_members fuel s2) as [[pairs rest]|] eqn:Hcall; [|done].
      apply IHo in Hcall as [? ?]; [|done].
      cbn in Hrun. injection Hrun as <- <-. split; [by apply dict_of_pairs_wf|done]. }
    destruct (c =? 91); [|by apply scan_atom_wf in Hrun].
    destruct (skip_ws s1) as [|c' s2] eqn:Hskip; [done|].
    destruct (c' =? 93).
    { apply Forall_cons in Hws as [_ Hs2].
      injection Hrun as <- <-. split; [by repeat constructor|done]. }
    destruct (array_items fuel (c' :: s2)) as [[values rest]|] eqn:Hcall; [|done].
    apply IHa in Hcall as [? ?]; [|done].
    cbn in Hrun. injection Hrun as <- <-. split; [by constructor|done].
  - intros s l r Hrun Hclean. rewrite array_items_S in Hrun.
    destruct (scan_once fuel s) as [[v s1]|] eqn:Hcall; [|done].
    apply IHs in Hcall as [Hv Hs1]; [|done].
    cbn [mbind result_bind] in Hrun.
    pose proof (clean_skip_ws _ Hs1) as Hws.
    destruct (skip_ws s1) as [|c s2]; [done|].
    apply Forall_cons in Hws as [_ Hs2].
    destruct (c =? 93).
    { injection Hrun as <- <-. split; [by repeat constructor|done]. }
    destruct (c =? 44); [|done].
    destruct (array_items fuel (skip_ws s2)) as [[values rest]|] eqn:Hrest; [|done].
    apply IHa in Hrest as [? ?]; [|by apply clean_skip_ws].
    cbn in Hrun. injection Hrun as <- <-. split; [by constructor|done].
  - intros s d r Hrun Hclean. rewrite object_members_S in Hrun.
    destruct (scanstring s) as [[key s1]|] eqn:Hkey; [|done].
    apply scanstring_valid in Hkey as (Hk & Hs1 & _); [|done].
    cbn [mbind result_bind] in Hrun.
    pose proof (clean_skip_ws _ Hs1) as Hws.
    destruct (skip_ws s1) as [|c s2]; [done|].
    apply Forall_cons in Hws as [_ Hs2].
    destruct (c =? 58); [|done].
    destruct (scan_once fuel (skip_ws s2)) as [[v s3]|] eqn:Hcall; [|done].
    apply IHs in Hcall as [Hv Hs3]; [|by apply clean_skip_ws].
    cbn [mbind result_bind] in Hrun.
    pose proof (clean_skip_ws _ Hs3) as Hws3.
    destruct (skip_ws s3) as [|c' s4]; [done|].
    apply Forall_cons in Hws3 as [_ Hs4].
    destruct (c' =? 125).
    { injection Hrun as <- <-. split; [by repeat constructor|done]. }
    destruct (c' =? 44); [|done].
    pose proof (clean_skip_ws _ Hs4) as Hws4.
    destruct (skip_ws s4) as [|q s5]; [done|].
    apply Forall_cons in Hws4 as [_ Hs5].
    destruct (q =? 34); [|done].
    destruct (object_members fuel s5) as [[pairs rest]|] eqn:Hrest; [|done].
    apply IHo in Hrest as [? ?]; [|done].
    cbn in Hrun. injection Hrun as <- <-. split; [by repeat constructor|done].
Qed.
End Wf.

(** ** Loading what was saved from a load *)

Section Reload.
Context {FM : PyFloat} {FL : PyFloatLaws FM}.

Lemma loads_wf text v : clean text -> loads text = Ok v -> wf_val v.
Proof.
  intros Hclean. unfold loads. destruct (starts_with_bom text); [done|].
  destruct (scan_once _ _) as [[v' rest]|] eqn:Hscan; [|done]. cbn.
  destruct (decoder_wf (2 * length text + 1)) as (Hwf & _ & _).
  apply Hwf in Hscan as [? _]; [|by apply clean_skip_ws].
  destruct (skip_ws rest); [|done]. by intros [= <-].
Qed.

(** X18.  A value that [json.load] returned from a file, that nests no
    deeper than an inventory and whose integers have at most 4300 digits,
    is a value that [json.dump] writes and [json.load] reads back
    unchanged: a file of records that was edited by hand, whatever their
    keys and values are, loses nothing when the session saves it again.
    (The two bounds keep the statement to the values on which the limits
    of the runtime that the model leaves out cannot be met.) *)
Theorem reload_is_stable (text : str) (v : pyval) :
  clean text -> load (Some text) = Ok v ->
  (depth v <= 2)%nat -> small_ints v = true ->
  wf_val v /\ load (Some (dumps v)) = Ok v.
Proof.
  intros Hclean Hload _ _. cbn [load] in *.
  pose proof (loads_wf text v Hclean Hload) as Hwf.
  split; [done|]. by apply loads_dumps.
Qed.
End Reload.

(** ** The properties above on the scenario *)

Section MoreScenario.
#[local] Existing Instance half_floats.

Lemma ids_count_up_without_delete_witness :
  Forall (fun a => is_delete a = false) session
  /\ id_options (inventory (run empty_store session)) = [1; 2]%Z.
Proof.
  assert (Forall (fun a => is_delete a = false) session) as Hno
    by (repeat constructor).
  split; [exact Hno|]. exact (proj1 (ids_count_up_without_delete session Hno)).
Defined.

Lemma delete_offered_id_shrinks_witness :
  1%Z ∈ id_options [fern; goldfish]
  /\ (length (delete [fern; goldfish] 1) < length [fern; goldfish])%nat.
Proof.
  assert (1%Z ∈ id_options [fern; goldfish]) as Hin by (cbn; left).
  split; [exact Hin|]. exact (proj1 (delete_offered_id_shrinks [fern; goldfish] 1%Z Hin)).
Defined.

Lemma update_last_wins_and_commutes_witness :
  update_prices (update_prices [fern; goldfish] 1 (half 3)) 2 (half 5)
  = update_prices (update_prices [fern; goldfish] 2 (half 5)) 1 (half 3).
Proof.
  apply (proj2 (update_last_wins_and_commutes [fern; goldfish] 1 2 (half 3) (half 5))).
  lia.
Defined.

Lemma add_then_delete_new_id_witness :
  delete ([fern; goldfish] ++ [new_item [fern; goldfish] (py "Moss") (py "Plants") 1
                                 (half 0) [] []]) 3
  = [fern; goldfish].
Proof.
  apply (proj2 (add_then_delete_new_id [fern; goldfish] (py "Moss") (py "Plants") 1
                  (half 0) [] [])).
  apply (bool_decide_unpack _). by vm_compute.
Defined.

Lemma update_to_current_price_witness :
  current_item [fern; goldfish] 2 = Some goldfish
  /\ NoDup (id_options [fern; goldfish])
  /\ update_prices [fern; goldfish] 2 (price goldfish) = [fern; goldfish].
Proof.
  assert (NoDup (id_options [fern; goldfish])) as Hids
    by (apply (bool_decide_unpack _); by vm_compute).
  split; [reflexivity|]. split; [exact Hids|].
  exact (update_to_current_price [fern; goldfish] 2 goldfish eq_refl Hids).
Defined.

Lemma category_options_cover_witness :
  [py "Plants"] ⊆ category_options [fern; goldfish]
  /\ filter_by_category [fern; goldfish] [py "Plants"] <> [].
Proof.
  assert ([py "Plants"] ⊆ category_options [fern; goldfish]) as Hsub.
  { intros c Hc. apply list_elem_of_singleton in Hc as ->. vm_compute. left. }
  split; [exact Hsub|].
  apply (proj2 (proj2 (proj2 (category_options_cover [fern; goldfish])))); [done|exact Hsub].
Defined.

Lemma filtered_view_intersects_witness :
  Forall (fun c => is_special c = false) (py "fern")
  /\ exists rows,
       filtered_view ascii_ignorecase [fern; goldfish] [py "Plants"] (py "fern")
       = Some (Ok rows)
       /\ rows `sublist_of` [fern; goldfish]
       /\ (forall row,
             row ∈ rows <->
             row ∈ [fern; goldfish]
             /\ ([py "Plants"] = [] \/ category row ∈ [py "Plants"])
             /\ contains_ignorecase ascii_ignorecase (py "fern") (name row))
       /\ (exists named,
             filter_by_name ascii_ignorecase [fern; goldfish] (py "fern") = Some (Ok named)
             /\ filter_by_category named [py "Plants"] = rows).
Proof.
  assert (Forall (fun c => is_special c = false) (py "fern")) as Hplain
    by (repeat constructor).
  split; [exact Hplain|].
  exact (filtered_view_intersects ascii_ignorecase [fern; goldfish] [py "Plants"]
           (py "fern") Hplain).
Defined.

Lemma total_items_is_the_sum_witness :
  Forall (fun row => (1 <= quantity row)%Z) [fern; goldfish]
  /\ (foldr Z.add 0%Z (map quantity [fern; goldfish]) < 2 ^ 63)%Z
  /\ total_items [fern; goldfish] = Some 5%Z.
Proof.
  assert (Forall (fun row => (1 <= quantity row)%Z) [fern; goldfish]) as Hpos
    by (repeat constructor; cbn; lia).
  assert (foldr Z.add 0%Z (map quantity [fern; goldfish]) < 2 ^ 63)%Z as Hsum
    by (by vm_compute).
  split; [exact Hpos|]. split; [exact Hsum|].
  exact (proj1 (total_items_is_the_sum [fern; goldfish] Hpos Hsum)).
Defined.

Lemma saved_file_is_printable_ascii_witness :
  WriteFails 40 <> OpenFails
  /\ exists text,
       file (save_inventory (WriteFails 40) scenario).1 = Some text
       /\ Forall printable text.
Proof.
  assert (WriteFails 40 <> OpenFails) as Hio by discriminate.
  split; [exact Hio|].
  exact (@saved_file_is_printable_ascii half_floats half_floats_laws
           (WriteFails 40) scenario Hio).
Defined.

Lemma successful_write_puts_file_in_sync_witness :
  valid_action (UpdatePrice 2 (half 5))
  /\ Forall valid_item (inventory scenario)
  /\ saves scenario (UpdatePrice 2 (half 5))
  /\ in_sync (step scenario (UpdatePrice 2 (half 5), NoFault)).
Proof.
  assert (saves scenario (UpdatePrice 2 (half 5))) as Hsaves
    by (cbn; right; left).
  split; [exact I|]. split; [exact scenario_valid|]. split; [exact Hsaves|].
  exact (@successful_write_puts_file_in_sync half_floats half_floats_laws
           scenario (UpdatePrice 2 (half 5)) I scenario_valid Hsaves).
Defined.

Lemma in_sync_while_writes_succeed_witness :
  Forall (fun act => valid_action act.1 /\ act.2 = NoFault) session
  /\ Forall valid_item (inventory empty_store)
  /\ in_sync empty_store
  /\ in_sync (run empty_store session).
Proof.
  assert (Forall (fun act => valid_action act.1 /\ act.2 = NoFault) session) as Hacts
    by (repeat constructor).
  assert (Forall valid_item (inventory empty_store)) as Hvalid by constructor.
  assert (in_sync empty_store) as Hsync by reflexivity.
  split; [exact Hacts|]. split; [exact Hvalid|]. split; [exact Hsync|].
  exact (proj1 (@in_sync_while_writes_succeed half_floats half_floats_laws
                  empty_store session Hacts Hvalid Hsync)).
Defined.

Lemma torn_write_is_refused_witness :
  Forall valid_item (inventory scenario)
  /\ load (file (save_inventory (WriteFails 40) scenario).1) = Raise JSONDecodeError.
Proof.
  split; [exact scenario_valid|].
  apply (proj1 (@torn_write_is_refused half_floats half_floats_laws
                  scenario 40 scenario_valid)).
  apply Nat.ltb_lt. by vm_compute.
Defined.

Lemma reload_is_stable_witness :
  clean (py "[1, 2.5, null, [true]]")
  /\ load (Some (py "[1, 2.5, null, [true]]"))
     = Ok (PList [PInt 1; PFloat (half 2); PNone; PList [PBool true]])
  /\ (depth (PList [PInt 1; PFloat (half 2); PNone; PList [PBool true]]) <= 2)%nat
  /\ small_ints (PList [PInt 1; PFloat (half 2); PNone; PList [PBool true]]) = true
  /\ load (Some (dumps (PList [PInt 1; PFloat (half 2); PNone; PList [PBool true]])))
     = Ok (PList [PInt 1; PFloat (half 2); PNone; PList [PBool true]]).
Proof.
  assert (depth (PList [PInt 1; PFloat (half 2); PNone; PList [PBool true]]) <= 2)%nat
    as Hdepth by (cbn; lia).
  assert (small_ints (PList [PInt 1; PFloat (half 2); PNone; PList [PBool true]]) = true)
    as Hints by (by vm_compute).
  assert (clean (py "[1, 2.5, null, [true]]")) as Hclean
    by (apply (bool_decide_unpack _); by vm_compute).
  assert (load (Some (py "[1, 2.5, null, [true]]"))
          = Ok (PList [PInt 1; PFloat (half 2); PNone; PList [PBool true]])) as Hload
    by (by vm_compute).
  split; [exact Hclean|]. split; [exact Hload|]. split; [exact Hdepth|].
  split; [exact Hints|].
  exact (proj2 (@reload_is_stable half_floats half_floats_laws _ _ Hclean Hload
                  Hdepth Hints)).
Defined.
End MoreScenario.
